(** * pm/sendermonitor.go: the sender monitor of the probabilistic
    micropayment core, as a shallow embedding.

    The monitor keeps one [remoteSender] record per remote sender
    (pending amount, ticket queue, last access time) in a Go map and
    reads the sender's reserve through the [SenderManager] and
    [RoundsManager] interfaces on every max-float computation.

    Conventions of the embedding:
    - [*big.Int] values are [Z]; [big.Int.Div] is Euclidean division.
    - [int64] values are [Z] with the wrap-around of the subtraction in
      [cleanup] written out ([sub64]).
    - a Go result pair [(v, err)] coming from a collaborator is a pair of
      options ([None] is [nil]); dereferencing [nil] is [Panic].
    - the collaborators (SenderManager, RoundsManager, clock) are read
      through an [Env] given afresh to every call, so they may change
      arbitrarily between two calls; calls made *to* collaborators and to
      the ticket queue are recorded as a list of [event]s.
    - [AddFloat], [SubFloat], [QueueTicket] and [cleanup] hold the
      monitor's write lock, [MaxFloat] its read lock; the model is the
      one of calls that do not overlap, each call a state transformer.
      A panic leaves the state as it is at that point (the unlock is
      deferred). *)

From Stdlib Require Import ZArith List Lia.
From stdpp Require Import gmap strings list fin_maps.

Local Open Scope Z_scope.

(** ** Data *)

(** [ethcommon.Address]: 20 bytes, read as a number. *)
Abbreviation Address := N (only parsing).

(** Go [error] values.  The monitor creates exactly one error itself, at
    the guard of [AddFloat]; every other error comes from a collaborator. *)
Inductive error : Type :=
| errInsufficientPending
| errExternal (msg : string).

(** The [Error()] text of an error. *)
Definition Error (e : error) : string :=
  match e with
  | errInsufficientPending => "cannot subtract from insufficient pendingAmount"
  | errExternal msg => msg
  end.

(** [ReserveState] of pm/broker.go. *)
Inductive ReserveState : Type := NotFrozen | Frozen | Thawed.

(** [SenderInfo] of pm/broker.go. *)
Record SenderInfo : Type := mkSenderInfo {
  Deposit : Z;
  WithdrawBlock : Z;
  Reserve : Z;
  ReserveState_of : ReserveState;
  ThawRound : Z
}.

(** Modelled from the spec: the declaration of [SignedTicket] is not part
    of the sources at hand; the monitor only hands tickets to the queue,
    the spec names a sender nonce and a face value. *)
Record SignedTicket : Type := mkSignedTicket {
  SenderNonce : N;
  FaceValue : Z
}.

(** A Go pair [(v, err)] returned by a collaborator. *)
Definition gopair (A : Type) : Type := (option A * option error)%type.

(** What the collaborators answer at the time of one call. *)
Record Env : Type := mkEnv {
  (* smgr.GetSenderInfo(addr) *)
  GetSenderInfo : Address -> gopair SenderInfo;
  (* smgr.ClaimedReserve(reserveHolder, claimant) *)
  ClaimedReserve : Address -> Address -> gopair Z;
  (* rm.GetTranscoderPoolSize() *)
  GetTranscoderPoolSize : Z;
  (* unixNow() *)
  unixNow : Z
}.

(** [remoteSender].  [queue] and [done] are references to the ticket
    queue and to the channel allocated by [cache]. *)
Record remoteSender : Type := mkRemoteSender {
  pendingAmount : Z;
  queue : nat;
  done : nat;
  lastAccess : Z
}.

(** [senderMonitor].  [ttl] is a Go [int], which [cleanup] converts with
    [int64(sm.ttl)], the identity on a 64-bit platform.  [nextRef] is the
    allocation counter standing for the Go heap: [cache] takes fresh
    references from it.  The lock, the channels and the collaborators
    are not state of the model. *)
Record senderMonitor : Type := mkSenderMonitor {
  claimant : Address;
  ttl : Z;
  senders : gmap N remoteSender;
  nextRef : nat
}.

(** Calls the monitor makes on its collaborators. *)
Inductive event : Type :=
| EvQueueStart (q : nat)                      (* queue.Start() *)
| EvGoConsumer (q d : nat)                    (* go sm.startTicketQueueConsumerLoop(queue, done) *)
| EvQueueAdd (q : nat) (t : SignedTicket)     (* queue.Add(ticket) *)
| EvSignalMaxFloat (q : nat) (mf : Z)         (* queue.SignalMaxFloat(mf) *)
| EvClearErrCount (a : Address)               (* sm.em.ClearErrCount(addr) *)
| EvDone (d : nat)                            (* v.done <- struct{}{} *)
| EvSmgrClear (a : Address).                  (* sm.smgr.Clear(k) *)

(** Result of a Go function returning [(v, error)] in one of the two
    shapes [(v, nil)] and [(nil, err)]. *)
Inductive result (A : Type) : Type :=
| Ok (v : A)
| Err (e : error).
Arguments Ok {A} v.
Arguments Err {A} e.

(** A call either returns or panics. *)
Inductive res (A : Type) : Type :=
| Val (a : A)
| Panic.
Arguments Val {A} a.
Arguments Panic {A}.

(** ** Machine integers and big integers *)

Definition wrap64 (z : Z) : Z := (z + 2 ^ 63) mod 2 ^ 64 - 2 ^ 63.

(** [a - b] on [int64]. *)
Definition sub64 (a b : Z) : Z := wrap64 (a - b).

Definition int64 (z : Z) : Prop := - 2 ^ 63 <= z < 2 ^ 63.

(** [new(big.Int).Div(x, y)] for [y <> 0]: Euclidean division. *)
Definition big_Div (x y : Z) : Z := Z.sgn y * (x / Z.abs y).

(** ** The monad of the methods: monitor state, event log, panics *)

Definition M (A : Type) : Type :=
  senderMonitor -> res A * senderMonitor * list event.

Definition ret {A} (a : A) : M A := fun sm => (Val a, sm, []).

Definition bind {A B} (c : M A) (k : A -> M B) : M B := fun sm =>
  match c sm with
  | (Val a, sm1, l1) => let '(r, sm2, l2) := k a sm1 in (r, sm2, l1 ++ l2)
  | (Panic, sm1, l1) => (Panic, sm1, l1)
  end.

Definition get : M senderMonitor := fun sm => (Val sm, sm, []).
Definition put (sm' : senderMonitor) : M unit := fun _ => (Val tt, sm', []).
Definition emit (ev : event) : M unit := fun sm => (Val tt, sm, [ev]).
Definition panic {A} : M A := fun sm => (Panic, sm, []).

Notation "x <-- c ;; k" := (bind c (fun x => k))
  (at level 100, c at next level, right associativity).
Notation "c ;;; k" := (bind c (fun _ => k))
  (at level 100, right associativity).

(** Field updates. *)
Definition set_senders (s : gmap N remoteSender) (sm : senderMonitor) : senderMonitor :=
  mkSenderMonitor (claimant sm) (ttl sm) s (nextRef sm).

Definition set_lastAccess (t : Z) (r : remoteSender) : remoteSender :=
  mkRemoteSender (pendingAmount r) (queue r) (done r) t.

Definition set_pendingAmount (p : Z) (r : remoteSender) : remoteSender :=
  mkRemoteSender p (queue r) (done r) (lastAccess r).

(** ** The monitor *)

(** [NewSenderMonitor]: no sender is tracked. *)
Definition NewSenderMonitor (claimant : Address) (ttl : Z) : senderMonitor :=
  mkSenderMonitor claimant ttl ∅ 0%nat.

(** [sm.reserveAlloc(addr)].  The error of [ClaimedReserve] is bound and
    never looked at. *)
Definition reserveAlloc (e : Env) (sm : senderMonitor) (addr : Address) : res (result Z) :=
  let '(info, err) := GetSenderInfo e addr in
  match err with
  | Some err => Val (Err err)
  | None =>
    let '(claimed, _) := ClaimedReserve e addr (claimant sm) in
    let poolSize := GetTranscoderPoolSize e in
    if poolSize =? 0 then Val (Ok 0)
    else
      match info, claimed with
      | Some info, Some claimed => Val (Ok (big_Div (Reserve info) poolSize - claimed))
      | _, _ => Panic
      end
  end.

(** [sm.maxFloat(addr)]: reserveAlloc - pendingAmount. *)
Definition maxFloat (e : Env) (sm : senderMonitor) (addr : Address) : res (result Z) :=
  match reserveAlloc e sm addr with
  | Val (Err err) => Val (Err err)
  | Val (Ok alloc) =>
    match senders sm !! addr with
    | Some r => Val (Ok (alloc - pendingAmount r))
    | None => Panic
    end
  | Panic => Panic
  end.

(** [sm.cache(addr)]: a new started queue, its consumer loop, and a
    record with pending amount zero. *)
Definition cache (e : Env) (addr : Address) : M unit :=
  sm <-- get ;;
  let q := nextRef sm in
  emit (EvQueueStart q) ;;;
  emit (EvGoConsumer q q) ;;;
  put (mkSenderMonitor (claimant sm) (ttl sm)
         (<[addr := mkRemoteSender 0 q q (unixNow e)]> (senders sm))
         (S q)).

(** [sm.ensureCache(addr)]. *)
Definition ensureCache (e : Env) (addr : Address) : M unit :=
  sm <-- get ;;
  match senders sm !! addr with
  | None => cache e addr
  | Some _ => ret tt
  end ;;;
  sm <-- get ;;
  match senders sm !! addr with
  | Some r => put (set_senders (<[addr := set_lastAccess (unixNow e) r]> (senders sm)) sm)
  | None => panic
  end.

(** [sm.AddFloat(addr, amount)]; the result is the returned [error],
    [None] for [nil]. *)
Definition AddFloat (e : Env) (addr : Address) (amount : Z) : M (option error) :=
  ensureCache e addr ;;;
  sm <-- get ;;
  match senders sm !! addr with
  | None => panic
  | Some r =>
    if pendingAmount r <? amount then ret (Some errInsufficientPending)
    else
      put (set_senders (<[addr := set_pendingAmount (pendingAmount r - amount) r]> (senders sm)) sm) ;;;
      emit (EvClearErrCount addr) ;;;
      sm <-- get ;;
      match maxFloat e sm addr with
      | Panic => panic
      | Val (Err err) => ret (Some err)
      | Val (Ok mf) =>
        match senders sm !! addr with
        | Some r => emit (EvSignalMaxFloat (queue r) mf) ;;; ret None
        | None => panic
        end
      end
  end.

(** [sm.SubFloat(addr, amount)]. *)
Definition SubFloat (e : Env) (addr : Address) (amount : Z) : M unit :=
  ensureCache e addr ;;;
  sm <-- get ;;
  match senders sm !! addr with
  | None => panic
  | Some r =>
    put (set_senders (<[addr := set_pendingAmount (pendingAmount r + amount) r]> (senders sm)) sm) ;;;
    emit (EvClearErrCount addr)
  end.

(** [sm.MaxFloat(addr)]. *)
Definition MaxFloat (e : Env) (addr : Address) : M (result Z) :=
  ensureCache e addr ;;;
  sm <-- get ;;
  match maxFloat e sm addr with
  | Val r => ret r
  | Panic => panic
  end.

(** [sm.QueueTicket(addr, ticket)]. *)
Definition QueueTicket (e : Env) (addr : Address) (ticket : SignedTicket) : M unit :=
  ensureCache e addr ;;;
  sm <-- get ;;
  match senders sm !! addr with
  | Some r => emit (EvQueueAdd (queue r) ticket)
  | None => panic
  end.

(** The test of the cleanup loop: [unixNow()-v.lastAccess > int64(sm.ttl)]. *)
Definition expired (now ttl : Z) (v : remoteSender) : bool :=
  ttl <? sub64 now (lastAccess v).

(** The body of [for k, v := range sm.senders], over the entries in the
    order the range visits them. *)
Fixpoint cleanup_range (now ttl : Z) (kvs : list (N * remoteSender))
    (s : gmap N remoteSender) : gmap N remoteSender * list event :=
  match kvs with
  | [] => (s, [])
  | (k, v) :: kvs' =>
    if expired now ttl v then
      let '(s', evs) := cleanup_range now ttl kvs' (delete k s) in
      (s', EvDone (done v) :: EvSmgrClear k :: evs)
    else cleanup_range now ttl kvs' s
  end.

(** [sm.cleanup()].  Go leaves the order of a map range unspecified; the
    model visits the entries in the order of [map_to_list].  The loop
    calls [unixNow()] at every entry; the model takes one reading for
    the pass, as the stubbed clock of the tests gives. *)
Definition cleanup (e : Env) : M unit := fun sm =>
  let '(s', evs) := cleanup_range (unixNow e) (ttl sm) (map_to_list (senders sm)) (senders sm) in
  (Val tt, set_senders s' sm, evs).

(** ** Observations used in the statements *)

(** The pending amount of [addr] as the next call on [addr] sees it: the
    record's, or zero, the value [cache] starts a record with. *)
Definition pendingOf (sm : senderMonitor) (addr : Address) : Z :=
  match senders sm !! addr with
  | Some r => pendingAmount r
  | None => 0
  end.

Definition state_of {A} (x : res A * senderMonitor * list event) : senderMonitor := snd (fst x).
Definition value_of {A} (x : res A * senderMonitor * list event) : res A := fst (fst x).
Definition events_of {A} (x : res A * senderMonitor * list event) : list event := snd x.

(** The record of [addr] once [ensureCache] has run at time [now]: the
    old record with a new access time, or the record [cache] builds. *)
Definition touched (now : Z) (sm : senderMonitor) (addr : Address) : remoteSender :=
  match senders sm !! addr with
  | Some r => set_lastAccess now r
  | None => mkRemoteSender 0 (nextRef sm) (nextRef sm) now
  end.

(** The monitor once [ensureCache] has run. *)
Definition touch (e : Env) (addr : Address) (sm : senderMonitor) : senderMonitor :=
  mkSenderMonitor (claimant sm) (ttl sm)
    (<[addr := touched (unixNow e) sm addr]> (senders sm))
    (match senders sm !! addr with Some _ => nextRef sm | None => S (nextRef sm) end).

(** The calls [ensureCache] makes: those of [cache], for an unknown sender. *)
Definition cache_events (sm : senderMonitor) (addr : Address) : list event :=
  match senders sm !! addr with
  | Some _ => []
  | None => [EvQueueStart (nextRef sm); EvGoConsumer (nextRef sm) (nextRef sm)]
  end.

(** ** Sequences of calls *)

(** One call on the monitor, by a client or by the cleanup ticker. *)
Inductive op : Type :=
| OpQueueTicket (addr : Address) (ticket : SignedTicket)
| OpSubFloat (addr : Address) (amount : Z)
| OpAddFloat (addr : Address) (amount : Z)
| OpMaxFloat (addr : Address)
| OpCleanup.

(** The monitor after one call made while the collaborators answer [e]. *)
Definition step (c : Env * op) (sm : senderMonitor) : senderMonitor :=
  let e := fst c in
  match snd c with
  | OpQueueTicket addr ticket => state_of (QueueTicket e addr ticket sm)
  | OpSubFloat addr amount => state_of (SubFloat e addr amount sm)
  | OpAddFloat addr amount => state_of (AddFloat e addr amount sm)
  | OpMaxFloat addr => state_of (MaxFloat e addr sm)
  | OpCleanup => state_of (cleanup e sm)
  end.

(** The monitor after a sequence of calls, first call first. *)
Definition run (cs : list (Env * op)) (sm : senderMonitor) : senderMonitor :=
  fold_left (fun sm c => step c sm) cs sm.

(** The amount a call carries, zero for the calls without one. *)
Definition amount_of (o : op) : Z :=
  match o with
  | OpSubFloat _ x => x
  | OpAddFloat _ y => y
  | _ => 0
  end.

(** A call of the float algebra on one sender. *)
Inductive floatcall : Type :=
| FSub (x : Z)
| FAdd (y : Z).

Definition float_op (addr : Address) (c : Env * floatcall) : Env * op :=
  (fst c, match snd c with FSub x => OpSubFloat addr x | FAdd y => OpAddFloat addr y end).

Definition float_amount (c : Env * floatcall) : Z :=
  match snd c with FSub x => x | FAdd y => y end.

(** Total of the [SubFloat] amounts and of the [AddFloat] amounts. *)
Fixpoint sumSub (cs : list (Env * floatcall)) : Z :=
  match cs with
  | [] => 0
  | (_, FSub x) :: cs' => x + sumSub cs'
  | (_, FAdd _) :: cs' => sumSub cs'
  end.

Fixpoint sumAdd (cs : list (Env * floatcall)) : Z :=
  match cs with
  | [] => 0
  | (_, FSub _) :: cs' => sumAdd cs'
  | (_, FAdd y) :: cs' => y + sumAdd cs'
  end.

(** The four calls that name a sender. *)
Inductive sender_call : Type :=
| CallMaxFloat
| CallAddFloat (amount : Z)
| CallSubFloat (amount : Z)
| CallQueueTicket (ticket : SignedTicket).

(** ** Fixtures of the tests *)

(** The stub collaborators of the tests: one [SenderInfo] with the given
    reserve and one claimed amount for every sender, no error. *)
Definition env_fixture (reserve pool claimed now : Z) : Env :=
  mkEnv (fun _ => (Some (mkSenderInfo 500 0 reserve NotFrozen 0), None))
        (fun _ _ => (Some claimed, None))
        pool now.

(** The stub sender manager with [smgr.err] set: both reads return it. *)
Definition env_failing (msg : string) (pool now : Z) : Env :=
  mkEnv (fun _ => (None, Some (errExternal msg)))
        (fun _ _ => (None, Some (errExternal msg)))
        pool now.

(** A sender manager whose [GetSenderInfo] succeeds and whose
    [ClaimedReserve] fails, returning [claimed] next to the error. *)
Definition env_claimed_fails (msg : string) (claimed : option Z) (reserve pool now : Z) : Env :=
  mkEnv (fun _ => (Some (mkSenderInfo 500 0 reserve NotFrozen 0), None))
        (fun _ _ => (claimed, Some (errExternal msg)))
        pool now.

(** State and calls made by one of the four calls on sender [addr]. *)
Definition call_outcome (e : Env) (addr : Address) (c : sender_call)
    (sm : senderMonitor) : senderMonitor * list event :=
  match c with
  | CallMaxFloat => let x := MaxFloat e addr sm in (state_of x, events_of x)
  | CallAddFloat y => let x := AddFloat e addr y sm in (state_of x, events_of x)
  | CallSubFloat x' => let x := SubFloat e addr x' sm in (state_of x, events_of x)
  | CallQueueTicket t => let x := QueueTicket e addr t sm in (state_of x, events_of x)
  end.

(** The references held by the records are below the allocation
    counter: what [cache] allocates next is held by no record. *)
Definition refs_below (sm : senderMonitor) : Prop :=
  forall b r, senders sm !! b = Some r ->
    (queue r < nextRef sm)%nat /\ (done r < nextRef sm)%nat.

(** Distinct senders hold distinct queues and distinct [done] channels. *)
Definition queues_distinct (sm : senderMonitor) : Prop :=
  forall a b ra rb, senders sm !! a = Some ra -> senders sm !! b = Some rb ->
    queue ra = queue rb \/ done ra = done rb -> a = b.

(** The calls of the cleanup loop for one entry of the range. *)
Definition evict_events (now ttl : Z) (kv : N * remoteSender) : list event :=
  if expired now ttl (snd kv) then [EvDone (done (snd kv)); EvSmgrClear (fst kv)] else [].

(** The addresses for which [smgr.Clear] is called, in order. *)
Definition cleared (evs : list event) : list N :=
  omap (fun ev => match ev with EvSmgrClear k => Some k | _ => None end) evs.

(** The max-float signals among the calls, in order. *)
Definition signals (evs : list event) : list (nat * Z) :=
  omap (fun ev => match ev with EvSignalMaxFloat q mf => Some (q, mf) | _ => None end) evs.

(** [f] applied to the amount a max-float computation returns. *)
Definition map_float (f : Z -> Z) (r : res (result Z)) : res (result Z) :=
  match r with
  | Val (Ok mf) => Val (Ok (f mf))
  | other => other
  end.

(** The sender a call is made for; a cleanup pass has none. *)
Definition op_target (o : op) : option N :=
  match o with
  | OpQueueTicket a _ | OpSubFloat a _ | OpAddFloat a _ | OpMaxFloat a => Some a
  | OpCleanup => None
  end.

(** * server/handlers.go: the HTTP handlers of the payment endpoints

    A handler is run on a request and its collaborators' answers and
    yields the calls it makes, in order, on the response writer, on the
    log and on the ETH client.  The functions of packages that are not
    part of the sources at hand ([common.ParseBigInt], [json.Marshal],
    [big.Int.Bytes]) and the ETH client are parameters.  The request is
    the one value every handler of the file takes. *)

Module server.

(** [*types.Transaction], by reference. *)
Abbreviation Transaction := nat (only parsing).

(** What a handler reads of [*http.Request]: the result of [r.ParseForm()]
    and the parsed form [r.Form]. *)
Record Request : Type := mkRequest {
  ParseForm : option error;
  Form : gmap string (list string)
}.

(** [r.FormValue(key)]: the first value of the key, or the empty string. *)
Definition FormValue (r : Request) (key : string) : string :=
  match Form r !! key with
  | Some (v :: _) => v
  | _ => ""
  end.

(** The answers of an [eth.LivepeerEthClient] during one request. *)
Record LivepeerEthClient : Type := mkClient {
  FundDepositAndReserve : option Z -> option Z -> gopair Transaction;
  FundDeposit : option Z -> gopair Transaction;
  Unlock : gopair Transaction;
  CancelUnlock : gopair Transaction;
  Withdraw : gopair Transaction;
  CheckTx : option Transaction -> option error;
  Account_Address : Address;
  GetSenderInfo : Address -> gopair SenderInfo;
  UnlockPeriod : gopair Z
}.

(** [BlockGetter]. *)
Record BlockGetter : Type := mkBlockGetter {
  LastSeenBlock : gopair Z
}.

(** Functions of other packages. *)
Record Pkg : Type := mkPkg {
  (* common.ParseBigInt *)
  ParseBigInt : string -> gopair Z;
  (* json.Marshal on a *pm.SenderInfo *)
  Marshal_SenderInfo : option SenderInfo -> gopair string;
  (* json.Marshal on struct{ UnlockPeriod *big.Int } *)
  Marshal_params : option Z -> gopair string;
  (* the method Bytes of big.Int *)
  Bytes : Z -> string
}.

(** The calls a handler makes. *)
Inductive hcall : Type :=
| Glog_Errorf (code : Z) (errMsg : string)   (* glog.Errorf("HTTP Response Error %v: %v", code, errMsg) *)
| Http_Error (errMsg : string) (code : Z)    (* http.Error(w, errMsg, code) *)
| W_WriteHeader (code : Z)                   (* w.WriteHeader(code) *)
| W_Header_Set (key value : string)          (* w.Header().Set(key, value) *)
| W_Write (data : string)                    (* w.Write(data) *)
| Call_LastSeenBlock
| Call_FundDepositAndReserve (depositAmount reserveAmount : option Z)
| Call_FundDeposit (amount : option Z)
| Call_Unlock
| Call_CancelUnlock
| Call_Withdraw
| Call_CheckTx (tx : option Transaction)
| Call_GetSenderInfo (addr : Address)
| Call_UnlockPeriod
| Panic_nil.                                 (* nil pointer dereference, the handler stops *)

Definition Handler : Type := Request -> list hcall.

Definition StatusOK : Z := 200.
Definition StatusBadRequest : Z := 400.
Definition StatusInternalServerError : Z := 500.

Definition respondWithError (errMsg : string) (code : Z) : list hcall :=
  [Glog_Errorf code errMsg; Http_Error errMsg code].

Definition respondWith500 (errMsg : string) : list hcall :=
  respondWithError errMsg StatusInternalServerError.

Definition respondWith400 (errMsg : string) : list hcall :=
  respondWithError errMsg StatusBadRequest.

(** The loop [for _, param := range params] of [mustHaveFormParams]. *)
Fixpoint mustHaveFormParams_range (h : Handler) (r : Request) (params : list string)
    : list hcall :=
  match params with
  | [] => h r
  | param :: params' =>
    if String.eqb (FormValue r param) ""
    then respondWith400 ("missing form param: " +:+ param)
    else mustHaveFormParams_range h r params'
  end.

Definition mustHaveFormParams (h : Handler) (params : list string) : Handler := fun r =>
  match ParseForm r with
  | Some err => respondWith500 ("parse form error: " +:+ Error err)
  | None => mustHaveFormParams_range h r params
  end.

Definition currentBlockHandler (pkg : Pkg) (getter : option BlockGetter) : Handler := fun r =>
  match getter with
  | None => respondWith500 "missing block getter"
  | Some getter =>
    Call_LastSeenBlock ::
    match LastSeenBlock getter with
    | (_, Some err) => respondWith500 ("could not query last seen block: " +:+ Error err)
    | (blk, None) =>
      W_WriteHeader StatusOK ::
      match blk with
      | Some blk => [W_Write (Bytes pkg blk)]
      | None => [Panic_nil]
      end
    end
  end.

Definition fundDepositAndReserveHandler (pkg : Pkg) (client : option LivepeerEthClient)
    : Handler := fun r =>
  match client with
  | None => respondWith500 "missing ETH client"
  | Some client =>
    match ParseBigInt pkg (FormValue r "depositAmount") with
    | (_, Some err) => respondWith400 ("invalid depositAmount: " +:+ Error err)
    | (depositAmount, None) =>
      match ParseBigInt pkg (FormValue r "reserveAmount") with
      | (_, Some err) => respondWith400 ("invalid reserveAmount: " +:+ Error err)
      | (reserveAmount, None) =>
        Call_FundDepositAndReserve depositAmount reserveAmount ::
        match FundDepositAndReserve client depositAmount reserveAmount with
        | (_, Some err) =>
          respondWith500 ("could not execute fundDepositAndReserve: " +:+ Error err)
        | (tx, None) =>
          Call_CheckTx tx ::
          match CheckTx client tx with
          | Some err =>
            respondWith500 ("could not execute fundDepositAndReserve: " +:+ Error err)
          | None => [W_WriteHeader StatusOK; W_Write "fundDepositAndReserve success"]
          end
        end
      end
    end
  end.

Definition fundDepositHandler (pkg : Pkg) (client : option LivepeerEthClient)
    : Handler := fun r =>
  match client with
  | None => respondWith500 "missing ETH client"
  | Some client =>
    match ParseBigInt pkg (FormValue r "amount") with
    | (_, Some err) => respondWith400 ("invalid amount: " +:+ Error err)
    | (amount, None) =>
      Call_FundDeposit amount ::
      match FundDeposit client amount with
      | (_, Some err) => respondWith500 ("could not execute fundDeposit: " +:+ Error err)
      | (tx, None) =>
        Call_CheckTx tx ::
        match CheckTx client tx with
        | Some err => respondWith500 ("could not execute fundDeposit: " +:+ Error err)
        | None => [W_WriteHeader StatusOK; W_Write "fundDeposit success"]
        end
      end
    end
  end.

Definition unlockHandler (client : option LivepeerEthClient) : Handler := fun r =>
  match client with
  | None => respondWith500 "missing ETH client"
  | Some client =>
    Call_Unlock ::
    match Unlock client with
    | (_, Some err) => respondWith500 ("could not execute unlock: " +:+ Error err)
    | (tx, None) =>
      Call_CheckTx tx ::
      match CheckTx client tx with
      | Some err => respondWith500 ("could not execute unlock: " +:+ Error err)
      | None => [W_WriteHeader StatusOK; W_Write "unlock success"]
      end
    end
  end.

Definition cancelUnlockHandler (client : option LivepeerEthClient) : Handler := fun r =>
  match client with
  | None => respondWith500 "missing ETH client"
  | Some client =>
    Call_CancelUnlock ::
    match CancelUnlock client with
    | (_, Some err) => respondWith500 ("could not execute cancelUnlock: " +:+ Error err)
    | (tx, None) =>
      Call_CheckTx tx ::
      match CheckTx client tx with
      | Some err => respondWith500 ("could not execute cancelUnlock: " +:+ Error err)
      | None => [W_WriteHeader StatusOK; W_Write "cancelUnlock success"]
      end
    end
  end.

Definition withdrawHandler (client : option LivepeerEthClient) : Handler := fun r =>
  match client with
  | None => respondWith500 "missing ETH client"
  | Some client =>
    Call_Withdraw ::
    match Withdraw client with
    | (_, Some err) => respondWith500 ("could not execute withdraw: " +:+ Error err)
    | (tx, None) =>
      Call_CheckTx tx ::
      match CheckTx client tx with
      | Some err => respondWith500 ("could not execute withdraw: " +:+ Error err)
      | None => [W_WriteHeader StatusOK; W_Write "withdraw success"]
      end
    end
  end.

(** The [pm.SenderInfo] the handler puts in place of an "ErrNoResult". *)
Definition zero_SenderInfo : SenderInfo := mkSenderInfo 0 0 0 NotFrozen 0.

(** The end of [senderInfoHandler] and of [ticketBrokerParamsHandler]
    once the data is marshalled. *)
Definition write_json (errPrefix : string) (m : gopair string) : list hcall :=
  match m with
  | (_, Some err) => respondWith500 (errPrefix +:+ Error err)
  | (data, None) =>
    [W_WriteHeader StatusOK;
     W_Header_Set "Content-Type" "application/json";
     W_Write (default "" data)]
  end.

Definition senderInfoHandler (pkg : Pkg) (client : option LivepeerEthClient)
    : Handler := fun r =>
  match client with
  | None => respondWith500 "missing ETH client"
  | Some client =>
    Call_GetSenderInfo (Account_Address client) ::
    match GetSenderInfo client (Account_Address client) with
    | (info, Some err) =>
      if String.eqb (Error err) "ErrNoResult"
      then write_json "could not parse sender info: "
             (Marshal_SenderInfo pkg (Some zero_SenderInfo))
      else respondWith500 ("could not query sender info: " +:+ Error err)
    | (info, None) =>
      write_json "could not parse sender info: " (Marshal_SenderInfo pkg info)
    end
  end.

Definition ticketBrokerParamsHandler (pkg : Pkg) (client : option LivepeerEthClient)
    : Handler := fun r =>
  match client with
  | None => respondWith500 "missing ETH client"
  | Some client =>
    Call_UnlockPeriod ::
    match UnlockPeriod client with
    | (_, Some err) =>
      respondWith500 ("could not query TicketBroker unlockPeriod: " +:+ Error err)
    | (unlockPeriod, None) =>
      write_json "could not query TicketBroker params: " (Marshal_params pkg unlockPeriod)
    end
  end.

(** The status codes a handler answers with, in order: those of
    [http.Error] and of [w.WriteHeader]. *)
Definition statuses (cs : list hcall) : list Z :=
  omap (fun c => match c with
                 | Http_Error _ code => Some code
                 | W_WriteHeader code => Some code
                 | _ => None
                 end) cs.



(** The handlers that submit a transaction, with the answer of the
    client to the submission and the message of success. *)
Inductive tx_endpoint : Type :=
| FundDepositAndReserveEndpoint
| FundDepositEndpoint
| UnlockEndpoint
| CancelUnlockEndpoint
| WithdrawEndpoint.

Definition tx_handler (pkg : Pkg) (ep : tx_endpoint) (client : option LivepeerEthClient)
    : Handler :=
  match ep with
  | FundDepositAndReserveEndpoint => fundDepositAndReserveHandler pkg client
  | FundDepositEndpoint => fundDepositHandler pkg client
  | UnlockEndpoint => unlockHandler client
  | CancelUnlockEndpoint => cancelUnlockHandler client
  | WithdrawEndpoint => withdrawHandler client
  end.

(** The amounts an endpoint reads from the form, as [ParseBigInt] gives
    them, in the order they are parsed. *)
Definition tx_inputs (pkg : Pkg) (ep : tx_endpoint) (r : Request) : list (gopair Z) :=
  match ep with
  | FundDepositAndReserveEndpoint =>
    [ParseBigInt pkg (FormValue r "depositAmount");
     ParseBigInt pkg (FormValue r "reserveAmount")]
  | FundDepositEndpoint => [ParseBigInt pkg (FormValue r "amount")]
  | _ => []
  end.



(** The handlers that take an ETH client. *)
Inductive endpoint : Type :=
| TxEndpoint (ep : tx_endpoint)
| SenderInfoEndpoint
| TicketBrokerParamsEndpoint.

Definition client_handler (pkg : Pkg) (ep : endpoint) (client : option LivepeerEthClient)
    : Handler :=
  match ep with
  | TxEndpoint ep => tx_handler pkg ep client
  | SenderInfoEndpoint => senderInfoHandler pkg client
  | TicketBrokerParamsEndpoint => ticketBrokerParamsHandler pkg client
  end.

End server.

(** * Properties *)

(** ** The monad *)

Ltac unfold_m := unfold bind, ret, get, put, emit, panic.

(** ** Scenarios of the tests, run on the model *)

Example S1_basic_MaxFloat :
  value_of (MaxFloat (env_fixture 500 50 100 0) 17%N (NewSenderMonitor 1%N 3600))
  = Val (Ok (-90)).
Proof. vm_compute. reflexivity. Qed.

Example S2_SubFloat_pipeline :
  let e := env_fixture 500 50 100 0 in
  value_of ((SubFloat e 17%N 5 ;;; SubFloat e 17%N 5 ;;; MaxFloat e 17%N) (NewSenderMonitor 1%N 3600))
  = Val (Ok (-100)).
Proof. vm_compute. reflexivity. Qed.

Example S7_AddFloat_without_Sub :
  let e := env_fixture 500 50 100 0 in
  let x := AddFloat e 17%N 10 (NewSenderMonitor 1%N 3600) in
  value_of x = Val (Some errInsufficientPending) /\ pendingOf (state_of x) 17%N = 0.
Proof. vm_compute. split; reflexivity. Qed.

(** ** What [ensureCache] does *)

Lemma ensureCache_run e a sm :
  ensureCache e a sm = (Val tt, touch e a sm, cache_events sm a).
Proof.
  unfold ensureCache, cache, touch, touched, cache_events. unfold_m.
  destruct (senders sm !! a) as [r|] eqn:Hl; cbn.
  - rewrite Hl. reflexivity.
  - rewrite lookup_insert_eq. cbn. unfold set_senders, set_lastAccess. cbn.
    rewrite insert_insert_eq. reflexivity.
Qed.

Lemma touch_lookup e a sm :
  senders (touch e a sm) !! a = Some (touched (unixNow e) sm a).
Proof. unfold touch. cbn. apply lookup_insert_eq. Qed.

Lemma touch_lookup_ne e a b sm :
  a <> b -> senders (touch e a sm) !! b = senders sm !! b.
Proof. intros H. unfold touch. cbn. by apply lookup_insert_ne. Qed.

Lemma touched_pending now sm a : pendingAmount (touched now sm a) = pendingOf sm a.
Proof. unfold touched, pendingOf. destruct (senders sm !! a); reflexivity. Qed.

Lemma touched_lastAccess now sm a : lastAccess (touched now sm a) = now.
Proof. unfold touched. destruct (senders sm !! a); reflexivity. Qed.

Lemma reserveAlloc_claimant e sm sm' a :
  claimant sm' = claimant sm -> reserveAlloc e sm' a = reserveAlloc e sm a.
Proof. intros H. unfold reserveAlloc. rewrite H. reflexivity. Qed.

(** ** The four calls, in closed form *)

Lemma AddFloat_run e a y sm :
  AddFloat e a y sm =
    if pendingOf sm a <? y
    then (Val (Some errInsufficientPending), touch e a sm, cache_events sm a)
    else
      let r := set_pendingAmount (pendingOf sm a - y) (touched (unixNow e) sm a) in
      let sm2 := set_senders (<[a := r]> (senders (touch e a sm))) (touch e a sm) in
      match reserveAlloc e sm a with
      | Val (Ok alloc) =>
        (Val None, sm2,
         cache_events sm a ++
           [EvClearErrCount a; EvSignalMaxFloat (queue r) (alloc - (pendingOf sm a - y))])
      | Val (Err err) => (Val (Some err), sm2, cache_events sm a ++ [EvClearErrCount a])
      | Panic => (Panic, sm2, cache_events sm a ++ [EvClearErrCount a])
      end.
Proof.
  unfold AddFloat. unfold bind at 1. rewrite ensureCache_run.
  unfold bind at 1. unfold get at 1. cbn iota.
  rewrite touch_lookup, touched_pending.
  destruct (pendingOf sm a <? y) eqn:Hg.
  - unfold ret. cbn. rewrite app_nil_r. reflexivity.
  - unfold_m. cbn. unfold maxFloat.
    rewrite (reserveAlloc_claimant e sm); [|reflexivity].
    destruct (reserveAlloc e sm a) as [[alloc|err]|]; cbn.
    + rewrite lookup_insert_eq. cbn. reflexivity.
    + reflexivity.
    + reflexivity.
Qed.

Lemma SubFloat_run e a x sm :
  SubFloat e a x sm =
    let r := set_pendingAmount (pendingOf sm a + x) (touched (unixNow e) sm a) in
    (Val tt, set_senders (<[a := r]> (senders (touch e a sm))) (touch e a sm),
     cache_events sm a ++ [EvClearErrCount a]).
Proof.
  unfold SubFloat. unfold bind at 1. rewrite ensureCache_run.
  unfold bind at 1. unfold get at 1. cbn iota.
  rewrite touch_lookup, touched_pending.
  unfold_m. cbn. reflexivity.
Qed.

Lemma MaxFloat_run e a sm :
  MaxFloat e a sm =
    (match reserveAlloc e sm a with
     | Val (Ok alloc) => Val (Ok (alloc - pendingOf sm a))
     | Val (Err err) => Val (Err err)
     | Panic => Panic
     end, touch e a sm, cache_events sm a).
Proof.
  unfold MaxFloat. unfold bind at 1. rewrite ensureCache_run.
  unfold bind at 1. unfold get at 1. cbn iota. unfold maxFloat.
  rewrite (reserveAlloc_claimant e sm); [|reflexivity].
  rewrite touch_lookup, touched_pending.
  destruct (reserveAlloc e sm a) as [[alloc|err]|]; unfold_m; cbn;
    rewrite ?app_nil_r; reflexivity.
Qed.

Lemma QueueTicket_run e a t sm :
  QueueTicket e a t sm =
    (Val tt, touch e a sm,
     cache_events sm a ++ [EvQueueAdd (queue (touched (unixNow e) sm a)) t]).
Proof.
  unfold QueueTicket. unfold bind at 1. rewrite ensureCache_run.
  unfold bind at 1. unfold get at 1. cbn iota. rewrite touch_lookup.
  unfold_m. cbn. reflexivity.
Qed.

(** ** The cleanup loop *)

Section CleanupRange.

Variables (now ttl : Z).

Lemma cleanup_range_None kvs : forall s k,
  s !! k = None -> (cleanup_range now ttl kvs s).1 !! k = None.
Proof.
  induction kvs as [|[k' v'] kvs IH]; intros s k Hs; cbn; [exact Hs|].
  destruct (expired now ttl v').
  - specialize (IH (delete k' s) k).
    destruct (cleanup_range now ttl kvs (delete k' s)) as [s' evs]. cbn in *.
    apply IH. rewrite lookup_delete. case_decide; [reflexivity | exact Hs].
  - by apply IH.
Qed.

Lemma cleanup_range_evicts kvs : forall s k v,
  (k, v) ∈ kvs -> expired now ttl v = true ->
  (cleanup_range now ttl kvs s).1 !! k = None.
Proof.
  induction kvs as [|[k' v'] kvs IH]; intros s k v Hin Hexp; [by apply elem_of_nil in Hin|].
  apply elem_of_cons in Hin as [Heq|Hin].
  - inversion Heq; subst k' v'. cbn. rewrite Hexp.
    pose proof (cleanup_range_None kvs (delete k s) k (lookup_delete_eq s k)) as H.
    destruct (cleanup_range now ttl kvs (delete k s)) as [s' evs]. exact H.
  - cbn. destruct (expired now ttl v').
    + specialize (IH (delete k' s) k v Hin Hexp).
      destruct (cleanup_range now ttl kvs (delete k' s)) as [s' evs]. exact IH.
    + by apply (IH s k v).
Qed.

Lemma cleanup_range_keeps kvs : forall s k,
  (forall v, (k, v) ∈ kvs -> expired now ttl v = false) ->
  (cleanup_range now ttl kvs s).1 !! k = s !! k.
Proof.
  induction kvs as [|[k' v'] kvs IH]; intros s k Hall; [reflexivity|].
  cbn. destruct (expired now ttl v') eqn:Hexp.
  - assert (k' <> k) as Hne.
    { intros ->. specialize (Hall v' (list_elem_of_here _ _)). congruence. }
    specialize (IH (delete k' s) k).
    destruct (cleanup_range now ttl kvs (delete k' s)) as [s' evs]. cbn in *.
    rewrite IH; [by apply lookup_delete_ne|].
    intros v Hv. apply Hall. by apply list_elem_of_further.
  - apply IH. intros v Hv. apply Hall. by apply list_elem_of_further.
Qed.

Lemma cleanup_range_Clear kvs : forall s k,
  In (EvSmgrClear k) (cleanup_range now ttl kvs s).2 <->
  exists v, (k, v) ∈ kvs /\ expired now ttl v = true.
Proof.
  induction kvs as [|[k' v'] kvs IH]; intros s k; cbn.
  - split; [tauto|]. intros (v & Hin & _). by apply elem_of_nil in Hin.
  - destruct (expired now ttl v') eqn:Hexp.
    + specialize (IH (delete k' s) k).
      destruct (cleanup_range now ttl kvs (delete k' s)) as [s' evs]. cbn in *.
      split.
      * intros [H|[H|H]]; [discriminate| |].
        -- inversion H; subst. exists v'. split; [apply list_elem_of_here | exact Hexp].
        -- apply IH in H as (v & Hin & Hv). exists v. split; [by apply list_elem_of_further | exact Hv].
      * intros (v & Hin & Hv). apply elem_of_cons in Hin as [Heq|Hin].
        -- inversion Heq; subst. right. left. reflexivity.
        -- right. right. apply IH. eauto.
    + rewrite IH. split.
      * intros (v & Hin & Hv). exists v. split; [by apply list_elem_of_further | exact Hv].
      * intros (v & Hin & Hv). apply elem_of_cons in Hin as [Heq|Hin].
        -- inversion Heq; subst. congruence.
        -- eauto.
Qed.

End CleanupRange.

(** After a pass, a record is there iff it was there and had not expired. *)
Lemma cleanup_lookup e sm k :
  senders (state_of (cleanup e sm)) !! k =
    match senders sm !! k with
    | Some v => if expired (unixNow e) (ttl sm) v then None else Some v
    | None => None
    end.
Proof.
  unfold cleanup, state_of.
  pose proof (cleanup_range_None (unixNow e) (ttl sm) (map_to_list (senders sm)) (senders sm) k) as HN.
  pose proof (cleanup_range_evicts (unixNow e) (ttl sm) (map_to_list (senders sm)) (senders sm) k) as HE.
  pose proof (cleanup_range_keeps (unixNow e) (ttl sm) (map_to_list (senders sm)) (senders sm) k) as HK.
  destruct (cleanup_range (unixNow e) (ttl sm) (map_to_list (senders sm)) (senders sm)) as [s' evs].
  cbn in *.
  destruct (senders sm !! k) as [v|] eqn:Hl.
  - destruct (expired (unixNow e) (ttl sm) v) eqn:Hexp.
    + apply (HE v); [by apply elem_of_map_to_list | exact Hexp].
    + rewrite HK; [reflexivity|]. intros v' Hv'.
      apply elem_of_map_to_list in Hv'. congruence.
  - by apply HN.
Qed.

(** A pass calls [smgr.Clear(k)] exactly for the records that had expired. *)
Lemma cleanup_Clear e sm k :
  In (EvSmgrClear k) (events_of (cleanup e sm)) <->
  exists v, senders sm !! k = Some v /\ expired (unixNow e) (ttl sm) v = true.
Proof.
  unfold cleanup, events_of.
  pose proof (cleanup_range_Clear (unixNow e) (ttl sm) (map_to_list (senders sm)) (senders sm) k) as HC.
  destruct (cleanup_range (unixNow e) (ttl sm) (map_to_list (senders sm)) (senders sm)) as [s' evs].
  cbn in *. rewrite HC.
  split; intros (v & H & Hv); exists v; (split; [|exact Hv]).
  - by apply elem_of_map_to_list.
  - by apply elem_of_map_to_list.
Qed.

Lemma cleanup_fields e sm :
  claimant (state_of (cleanup e sm)) = claimant sm /\
  ttl (state_of (cleanup e sm)) = ttl sm.
Proof.
  unfold cleanup, state_of.
  destruct (cleanup_range (unixNow e) (ttl sm) (map_to_list (senders sm)) (senders sm)).
  cbn. split; reflexivity.
Qed.

(** The [int64] subtraction is the difference when that fits 64 bits. *)
Lemma sub64_exact a b : int64 (a - b) -> sub64 a b = a - b.
Proof.
  unfold sub64, wrap64, int64. intros Hd.
  rewrite Z.mod_small; lia.
Qed.

(** Wrapping a non-negative difference never makes it larger. *)
Lemma sub64_le a b : 0 <= a - b -> sub64 a b <= a - b.
Proof.
  unfold sub64, wrap64. intros Hd.
  pose proof (Z.mod_le (a - b + 2 ^ 63) (2 ^ 64)) as H. lia.
Qed.

(** ** Pending amounts along a sequence of calls *)

Lemma pendingOf_touch e a b sm : pendingOf (touch e a sm) b = pendingOf sm b.
Proof.
  destruct (decide (a = b)) as [->|Hne].
  - unfold pendingOf at 1. rewrite touch_lookup. apply touched_pending.
  - unfold pendingOf. by rewrite touch_lookup_ne.
Qed.

Lemma pendingOf_SubFloat e a x sm :
  pendingOf (state_of (SubFloat e a x sm)) a = pendingOf sm a + x.
Proof.
  rewrite SubFloat_run. unfold state_of, pendingOf at 1. cbn.
  rewrite lookup_insert_eq. reflexivity.
Qed.

Lemma pendingOf_AddFloat e a y sm :
  pendingOf (state_of (AddFloat e a y sm)) a =
    if pendingOf sm a <? y then pendingOf sm a else pendingOf sm a - y.
Proof.
  rewrite AddFloat_run. destruct (pendingOf sm a <? y).
  - unfold state_of. cbn [fst snd]. apply pendingOf_touch.
  - cbn zeta. destruct (reserveAlloc e sm a) as [[alloc|err]|];
      unfold state_of, pendingOf at 1; cbn; rewrite lookup_insert_eq; reflexivity.
Qed.

Lemma run_snoc cs c sm : run (cs ++ [c]) sm = step c (run cs sm).
Proof. unfold run. rewrite fold_left_app. reflexivity. Qed.

Lemma sumSub_snoc cs c :
  sumSub (cs ++ [c]) = sumSub cs + match snd c with FSub x => x | FAdd _ => 0 end.
Proof.
  induction cs as [|[e' [x|y]] cs IH]; cbn.
  - destruct c as [e [x|y]]; cbn; lia.
  - rewrite IH. lia.
  - exact IH.
Qed.

Lemma sumAdd_snoc cs c :
  sumAdd (cs ++ [c]) = sumAdd cs + match snd c with FSub _ => 0 | FAdd y => y end.
Proof.
  induction cs as [|[e' [x|y]] cs IH]; cbn.
  - destruct c as [e [x|y]]; cbn; lia.
  - exact IH.
  - rewrite IH. lia.
Qed.

(** The pending amount after an interleaving whose every [AddFloat]
    passes the guard is the net of the amounts, whatever their signs. *)
Lemma pendingOf_float_run a cs : forall sm,
  0 <= pendingOf sm a ->
  (forall n : nat, sumAdd (take n cs) <= sumSub (take n cs)) ->
  pendingOf (run (map (float_op a) cs) sm) a = pendingOf sm a + (sumSub cs - sumAdd cs).
Proof.
  induction cs as [|c cs IH] using rev_ind; intros sm Hsm Hpre.
  - cbn. lia.
  - assert (forall n : nat, sumAdd (take n cs) <= sumSub (take n cs)) as Hpre'.
    { intros n. destruct (decide (n <= length cs)%nat) as [Hn|Hn].
      - specialize (Hpre n). by rewrite take_app_le in Hpre.
      - specialize (Hpre (length cs)). rewrite take_app_length in Hpre.
        rewrite take_ge by lia. exact Hpre. }
    specialize (IH sm Hsm Hpre').
    specialize (Hpre (length (cs ++ [c]))). rewrite firstn_all in Hpre.
    rewrite sumSub_snoc, sumAdd_snoc in *.
    rewrite map_app. cbn [map]. rewrite run_snoc.
    destruct c as [e [x|y]]; cbn [float_op fst snd] in *.
    + change (step (float_op a (e, FSub x))) with (fun s => state_of (SubFloat e a x s)).
      cbv beta. rewrite pendingOf_SubFloat, IH. lia.
    + change (step (float_op a (e, FAdd y))) with (fun s => state_of (AddFloat e a y s)).
      cbv beta. rewrite pendingOf_AddFloat, IH.
      destruct (Z.ltb_spec (pendingOf sm a + (sumSub cs - sumAdd cs)) y); lia.
Qed.

(** C1. Float algebra: starting with nothing pending for sender [a],
    after any interleaving of [SubFloat(a, x_i)] and [AddFloat(a, y_j)]
    calls with non-negative amounts in which the [AddFloat] total never
    exceeds the [SubFloat] total so far, the pending amount of [a] is the
    sum of the [x_i] minus the sum of the [y_j], and [MaxFloat(a)]
    returns [reserveAlloc(a)] minus that net amount (or the outcome of
    [reserveAlloc] when that is an error). *)
Theorem float_algebra (a : Address) (calls : list (Env * floatcall))
    (sm : senderMonitor) (e : Env) :
  pendingOf sm a = 0 ->
  Forall (fun c => 0 <= float_amount c) calls ->
  (forall n : nat, sumAdd (take n calls) <= sumSub (take n calls)) ->
  let sm' := run (map (float_op a) calls) sm in
  pendingOf sm' a = sumSub calls - sumAdd calls /\
  value_of (MaxFloat e a sm') =
    match reserveAlloc e sm' a with
    | Val (Ok alloc) => Val (Ok (alloc - (sumSub calls - sumAdd calls)))
    | Val (Err err) => Val (Err err)
    | Panic => Panic
    end.
Proof.
  intros H0 _ Hpre sm'.
  assert (pendingOf sm' a = sumSub calls - sumAdd calls) as Hp.
  { subst sm'. rewrite pendingOf_float_run; [lia | lia | exact Hpre]. }
  split; [exact Hp|].
  rewrite MaxFloat_run. unfold value_of. cbn [fst]. rewrite Hp. reflexivity.
Qed.

(** Two [SubFloat] of 5 and one [AddFloat] of 5 on the fixture of the
    tests (reserve 500, pool 50, claimed 100): max float is -90 - 5. *)
Lemma float_algebra_witness :
  let e := env_fixture 500 50 100 0 in
  let calls := [(e, FSub 5); (e, FSub 5); (e, FAdd 5)] in
  let sm' := run (map (float_op 17%N) calls) (NewSenderMonitor 1%N 3600) in
  pendingOf sm' 17%N = 5 /\ value_of (MaxFloat e 17%N sm') = Val (Ok (-95)).
Proof.
  intros e calls sm'.
  assert (forall n : nat, sumAdd (take n calls) <= sumSub (take n calls)) as Hpre.
  { intros [|[|[|[|n]]]]; cbn; lia. }
  assert (Forall (fun c => 0 <= float_amount c) calls) as Hnn.
  { repeat constructor; cbn; lia. }
  exact (float_algebra 17%N calls (NewSenderMonitor 1%N 3600) e eq_refl Hnn Hpre).
Defined.

(** ** Errors of the sender manager *)

(** An error of [GetSenderInfo] is what [reserveAlloc] returns. *)
Lemma reserveAlloc_GetSenderInfo_error e sm a info err :
  GetSenderInfo e a = (info, Some err) -> reserveAlloc e sm a = Val (Err err).
Proof. intros H. unfold reserveAlloc. rewrite H. reflexivity. Qed.

(** [reserveAlloc] returns no error but the one of [GetSenderInfo]: the
    error of [ClaimedReserve] is never returned. *)
Lemma reserveAlloc_error_origin e sm a err :
  reserveAlloc e sm a = Val (Err err) -> snd (GetSenderInfo e a) = Some err.
Proof.
  unfold reserveAlloc. destruct (GetSenderInfo e a) as [info [err'|]]; cbn.
  - congruence.
  - destruct (ClaimedReserve e a (claimant sm)) as [claimed cerr].
    destruct (GetTranscoderPoolSize e =? 0); [discriminate|].
    destruct info, claimed; discriminate.
Qed.

(** C2. The error of [ClaimedReserve] is not surfaced: with
    [GetSenderInfo] succeeding and [ClaimedReserve] failing, [MaxFloat]
    returns 0 and no error at pool size 0; at pool size 50 it returns
    -90 and no error when the failing call also hands back 100, and it
    panics on the nil amount otherwise; [AddFloat] returns nil. *)
Theorem ClaimedReserve_error_not_surfaced :
  let sm := NewSenderMonitor 1%N 3600 in
  let a := 17%N in
  value_of (MaxFloat (env_claimed_fails "ClaimedReserve error" None 500 0 0) a sm)
    = Val (Ok 0) /\
  value_of (MaxFloat (env_claimed_fails "ClaimedReserve error" (Some 100) 500 50 0) a sm)
    = Val (Ok (-90)) /\
  value_of (MaxFloat (env_claimed_fails "ClaimedReserve error" None 500 50 0) a sm)
    = Panic /\
  value_of (AddFloat (env_claimed_fails "ClaimedReserve error" None 500 0 0) a 0 sm)
    = Val None.
Proof. vm_compute. repeat split; reflexivity. Qed.

(** ** The guard of [AddFloat] *)

(** C3. AddFloat guard: when the amount is strictly greater than the
    pending amount of the sender, [AddFloat] returns the
    insufficient-pending error, the pending amount of every sender keeps
    its value, no max-float signal and no [ClearErrCount] is emitted;
    the monitor is the one [ensureCache] leaves: every other record is
    untouched and a record the sender already had differs in its access
    time only. *)
Theorem AddFloat_guard (e : Env) (a : Address) (y : Z) (sm : senderMonitor) :
  pendingOf sm a < y ->
  let x := AddFloat e a y sm in
  value_of x = Val (Some errInsufficientPending) /\
  (forall b, pendingOf (state_of x) b = pendingOf sm b) /\
  (forall q mf, ~ In (EvSignalMaxFloat q mf) (events_of x)) /\
  (forall b, ~ In (EvClearErrCount b) (events_of x)) /\
  state_of x = state_of (ensureCache e a sm) /\
  (forall b, b <> a -> senders (state_of x) !! b = senders sm !! b) /\
  (forall r, senders sm !! a = Some r ->
     senders (state_of x) !! a = Some (set_lastAccess (unixNow e) r)).
Proof.
  intros Hlt x. subst x. rewrite AddFloat_run, ensureCache_run.
  destruct (Z.ltb_spec (pendingOf sm a) y) as [_|Hge]; [|lia].
  unfold value_of, state_of, events_of. cbn [fst snd].
  split; [reflexivity|].
  split; [intros b; apply pendingOf_touch|].
  split.
  { intros q mf. unfold cache_events. destruct (senders sm !! a); cbn; intuition discriminate. }
  split.
  { intros b. unfold cache_events. destruct (senders sm !! a); cbn; intuition discriminate. }
  split; [reflexivity|].
  split.
  { intros b Hb. by apply touch_lookup_ne. }
  intros r Hr. rewrite touch_lookup. unfold touched. rewrite Hr. reflexivity.
Qed.

(** Scenario S7: on a fresh monitor [AddFloat(A, 10)] fails and the
    pending amount remains 0. *)
Lemma AddFloat_guard_witness :
  let x := AddFloat (env_fixture 500 50 100 0) 17%N 10 (NewSenderMonitor 1%N 3600) in
  value_of x = Val (Some errInsufficientPending) /\
  pendingOf (state_of x) 17%N = 0.
Proof.
  assert (pendingOf (NewSenderMonitor 1%N 3600) 17%N < 10) as Hlt by (vm_compute; reflexivity).
  pose proof (AddFloat_guard (env_fixture 500 50 100 0) 17%N 10 (NewSenderMonitor 1%N 3600) Hlt)
    as (Hv & Hp & _).
  split; [exact Hv | exact (Hp 17%N)].
Defined.

(** ** Pending amounts are never negative *)

Lemma pendingOf_SubFloat_ne e a b x sm :
  a <> b -> pendingOf (state_of (SubFloat e a x sm)) b = pendingOf sm b.
Proof.
  intros Hne. rewrite SubFloat_run. unfold state_of, pendingOf at 1. cbn.
  rewrite lookup_insert_ne by exact Hne. rewrite lookup_insert_ne by exact Hne. reflexivity.
Qed.

Lemma pendingOf_AddFloat_ne e a b y sm :
  a <> b -> pendingOf (state_of (AddFloat e a y sm)) b = pendingOf sm b.
Proof.
  intros Hne. rewrite AddFloat_run. destruct (pendingOf sm a <? y).
  - unfold state_of. cbn [fst snd]. apply pendingOf_touch.
  - cbn zeta. destruct (reserveAlloc e sm a) as [[alloc|err]|];
      unfold state_of, pendingOf at 1; cbn;
      rewrite lookup_insert_ne by exact Hne; rewrite lookup_insert_ne by exact Hne;
      reflexivity.
Qed.

Lemma pendingOf_cleanup e sm b :
  pendingOf (state_of (cleanup e sm)) b = pendingOf sm b \/
  pendingOf (state_of (cleanup e sm)) b = 0.
Proof.
  unfold pendingOf. rewrite cleanup_lookup.
  destruct (senders sm !! b) as [v|]; [|by left].
  destruct (expired (unixNow e) (ttl sm) v); [by right | by left].
Qed.

Lemma step_nonneg c sm :
  0 <= amount_of (snd c) ->
  (forall b, 0 <= pendingOf sm b) ->
  forall b, 0 <= pendingOf (step c sm) b.
Proof.
  intros Hamt Hinv b.
  destruct c as [e [a t|a x|a y|a|]]; unfold step; cbn [fst snd amount_of] in *.
  - rewrite QueueTicket_run. unfold state_of. cbn [fst snd]. rewrite pendingOf_touch. apply Hinv.
  - destruct (decide (a = b)) as [->|Hne].
    + rewrite pendingOf_SubFloat. specialize (Hinv b). lia.
    + rewrite pendingOf_SubFloat_ne by exact Hne. apply Hinv.
  - destruct (decide (a = b)) as [->|Hne].
    + rewrite pendingOf_AddFloat. specialize (Hinv b).
      destruct (Z.ltb_spec (pendingOf sm b) y); lia.
    + rewrite pendingOf_AddFloat_ne by exact Hne. apply Hinv.
  - rewrite MaxFloat_run. unfold state_of. cbn [fst snd]. rewrite pendingOf_touch. apply Hinv.
  - destruct (pendingOf_cleanup e sm b) as [-> | ->]; [apply Hinv | lia].
Qed.

Lemma run_nonneg cs : forall sm,
  Forall (fun c => 0 <= amount_of (snd c)) cs ->
  (forall b, 0 <= pendingOf sm b) ->
  forall b, 0 <= pendingOf (run cs sm) b.
Proof.
  induction cs as [|c cs IH]; intros sm Hall Hinv b; [apply Hinv|].
  inversion Hall as [|c' cs' Hc Hcs]; subst.
  change (run (c :: cs) sm) with (run cs (step c sm)).
  apply IH; [exact Hcs|]. by apply step_nonneg.
Qed.

(** C4. Non-negative pending: after every finite sequence of
    [QueueTicket], [SubFloat], [AddFloat] and [MaxFloat] calls (and
    cleanup passes) on a new monitor, with non-negative amounts and
    whatever the collaborators answer, the pending amount of every
    sender is at least zero. *)
Theorem pending_nonneg (claimant : Address) (ttl : Z) (cs : list (Env * op)) (a : Address) :
  Forall (fun c => 0 <= amount_of (snd c)) cs ->
  0 <= pendingOf (run cs (NewSenderMonitor claimant ttl)) a.
Proof.
  intros Hall. apply run_nonneg; [exact Hall|].
  intros b. unfold pendingOf, NewSenderMonitor. cbn. rewrite lookup_empty. lia.
Qed.

Lemma pending_nonneg_witness :
  let e := env_fixture 500 50 100 0 in
  0 <= pendingOf (run [(e, OpSubFloat 17%N 7); (e, OpAddFloat 17%N 9); (e, OpAddFloat 17%N 3);
                       (e, OpMaxFloat 17%N); (e, OpQueueTicket 5%N (mkSignedTicket 0 5))]
                      (NewSenderMonitor 1%N 3600)) 17%N.
Proof.
  intros e. apply pending_nonneg.
  repeat constructor; cbn; lia.
Defined.

(** ** Access times and the cleanup pass *)

(** Each of the four calls starts with the calls of [ensureCache] and
    leaves a record for its sender stamped with the current time. *)
Lemma call_outcome_stamps e a c sm :
  exists r evs,
    senders (call_outcome e a c sm).1 !! a = Some r /\
    lastAccess r = unixNow e /\
    ttl (call_outcome e a c sm).1 = ttl sm /\
    (call_outcome e a c sm).2 = events_of (ensureCache e a sm) ++ evs.
Proof.
  rewrite ensureCache_run. unfold events_of. cbn [snd].
  destruct c as [|y|x|t]; unfold call_outcome; cbn zeta.
  - rewrite MaxFloat_run. unfold state_of, events_of. cbn [fst snd].
    exists (touched (unixNow e) sm a), [].
    rewrite touch_lookup, touched_lastAccess, app_nil_r. auto.
  - rewrite AddFloat_run. destruct (pendingOf sm a <? y).
    + unfold state_of, events_of. cbn [fst snd].
      exists (touched (unixNow e) sm a), [].
      rewrite touch_lookup, touched_lastAccess, app_nil_r. auto.
    + cbn zeta. destruct (reserveAlloc e sm a) as [[alloc|err]|];
        unfold state_of, events_of; cbn [fst snd];
        eexists; eexists; cbn; rewrite lookup_insert_eq;
        (split; [reflexivity|]); cbn; rewrite touched_lastAccess; auto.
  - rewrite SubFloat_run. unfold state_of, events_of. cbn [fst snd].
    eexists; eexists; cbn; rewrite lookup_insert_eq.
    split; [reflexivity|]. cbn. rewrite touched_lastAccess. auto.
  - rewrite QueueTicket_run. unfold state_of, events_of. cbn [fst snd].
    eexists; eexists. rewrite touch_lookup, touched_lastAccess. auto.
Qed.

Lemma expired_iff now t v : expired now t v = true <-> t < sub64 now (lastAccess v).
Proof. unfold expired. apply Z.ltb_lt. Qed.

(** A record is kept by a pass iff it has not expired. *)
Lemma cleanup_keeps_iff e sm k v :
  senders sm !! k = Some v ->
  (senders (state_of (cleanup e sm)) !! k = Some v <->
   ~ ttl sm < sub64 (unixNow e) (lastAccess v)) /\
  (senders (state_of (cleanup e sm)) !! k = None <->
   ttl sm < sub64 (unixNow e) (lastAccess v)).
Proof.
  intros Hk. rewrite cleanup_lookup, Hk, <- expired_iff.
  destruct (expired (unixNow e) (ttl sm) v); split; split; intros H; congruence.
Qed.

(** C5. TTL cleanup and exclusion.  A cleanup pass at time [now] evicts
    the record of a sender exactly when [now - lastAccess] (the [int64]
    subtraction, which is the difference of the two clock readings
    whenever that fits 64 bits) strictly exceeds [ttl]; it removes the
    map entry and calls [smgr.Clear] for exactly the evicted senders,
    and keeps every other record as it is.  Each of [MaxFloat],
    [AddFloat], [SubFloat] and [QueueTicket] stamps the record of its
    sender with the current time, so that a pass that comes no more than
    [ttl] seconds later neither evicts the record nor clears the sender. *)
Theorem ttl_cleanup_and_exclusion (sm : senderMonitor) (k : Address) :
  (forall e v, senders sm !! k = Some v ->
     let x := cleanup e sm in
     (senders (state_of x) !! k = None <-> ttl sm < sub64 (unixNow e) (lastAccess v)) /\
     (senders (state_of x) !! k = Some v <-> ~ ttl sm < sub64 (unixNow e) (lastAccess v)) /\
     (In (EvSmgrClear k) (events_of x) <-> ttl sm < sub64 (unixNow e) (lastAccess v)) /\
     (int64 (unixNow e - lastAccess v) ->
        sub64 (unixNow e) (lastAccess v) = unixNow e - lastAccess v)) /\
  (forall e, senders sm !! k = None ->
     senders (state_of (cleanup e sm)) !! k = None /\
     ~ In (EvSmgrClear k) (events_of (cleanup e sm))) /\
  (forall c e1,
     let sm1 := (call_outcome e1 k c sm).1 in
     (exists r, senders sm1 !! k = Some r /\ lastAccess r = unixNow e1) /\
     (forall e2, 0 <= unixNow e2 - unixNow e1 <= ttl sm ->
        senders (state_of (cleanup e2 sm1)) !! k = senders sm1 !! k /\
        ~ In (EvSmgrClear k) (events_of (cleanup e2 sm1)))).
Proof.
  split; [|split].
  - intros e v Hk x. subst x.
    destruct (cleanup_keeps_iff e sm k v Hk) as [Hkeep Hgone].
    split; [exact Hgone|]. split; [exact Hkeep|]. split.
    + rewrite cleanup_Clear. split.
      * intros (v' & Hv' & Hexp). apply expired_iff in Hexp. congruence.
      * intros Hexp. exists v. split; [exact Hk | by apply expired_iff].
    + apply sub64_exact.
  - intros e Hk. split.
    + rewrite cleanup_lookup, Hk. reflexivity.
    + rewrite cleanup_Clear. intros (v & Hv & _). congruence.
  - intros c e1 sm1.
    destruct (call_outcome_stamps e1 k c sm) as (r & evs & Hr & Hla & Httl & _).
    fold sm1 in Hr, Httl.
    split; [exists r; split; assumption|].
    intros e2 Hwithin.
    assert (~ ttl sm1 < sub64 (unixNow e2) (lastAccess r)) as Hfresh.
    { rewrite Httl, Hla. pose proof (sub64_le (unixNow e2) (unixNow e1)). lia. }
    split.
    + rewrite Hr. by apply cleanup_keeps_iff.
    + rewrite cleanup_Clear. intros (v & Hv & Hexp).
      apply expired_iff in Hexp. congruence.
Qed.

(** Scenarios S5 and S6 with [ttl = 3600]: a record last accessed at
    time 0 is evicted and cleared by the pass at time 3601; after
    [MaxFloat] at time 3599 the pass at time 3600 keeps the record. *)
Lemma ttl_cleanup_and_exclusion_witness :
  let sm0 := NewSenderMonitor 1%N 3600 in
  let at_time := env_fixture 500 5 100 in
  let sm := (call_outcome (at_time 0) 17%N CallMaxFloat sm0).1 in
  (senders (state_of (cleanup (at_time 3601) sm)) !! 17%N = None /\
   In (EvSmgrClear 17%N) (events_of (cleanup (at_time 3601) sm))) /\
  (let sm1 := (call_outcome (at_time 3599) 17%N CallMaxFloat sm).1 in
   senders (state_of (cleanup (at_time 3600) sm1)) !! 17%N = senders sm1 !! 17%N).
Proof.
  intros sm0 at_time sm.
  destruct (ttl_cleanup_and_exclusion sm 17%N) as (Hevict & _ & Hstamp).
  split.
  - assert (senders sm !! 17%N = Some (mkRemoteSender 0 0%nat 0%nat 0)) as Hk
      by (vm_compute; reflexivity).
    destruct (Hevict (at_time 3601) _ Hk) as (Hgone & _ & Hclear & _).
    split; [apply Hgone | apply Hclear]; vm_compute; reflexivity.
  - destruct (Hstamp CallMaxFloat (at_time 3599)) as (_ & Hkeep).
    apply (Hkeep (at_time 3600)). vm_compute. split; discriminate.
Defined.

(** ** What [MaxFloat] reads *)

(** [reserveAlloc] depends on the collaborators' answers for the sender
    only. *)
Lemma reserveAlloc_ext e e' sm a :
  GetSenderInfo e' a = GetSenderInfo e a ->
  ClaimedReserve e' a (claimant sm) = ClaimedReserve e a (claimant sm) ->
  GetTranscoderPoolSize e' = GetTranscoderPoolSize e ->
  reserveAlloc e' sm a = reserveAlloc e sm a.
Proof. intros H1 H2 H3. unfold reserveAlloc. rewrite H1, H2, H3. reflexivity. Qed.

(** Scenario S6 on the model, with the stub sender manager of the tests:
    [MaxFloat] at time 0 and at time 3599, the pass at time 3600 keeps
    the record; once the reserve has changed from 500 to 1000 (pool 5,
    claimed 100), [MaxFloat] returns 1000/5 - 100 = 100, not the value 0
    it returned before the change. *)
Lemma MaxFloat_cached_counterexample :
  let before := env_fixture 500 5 100 in
  let after := env_fixture 1000 5 100 in
  let sm := run [(before 0, OpMaxFloat 17%N); (before 3599, OpMaxFloat 17%N);
                 (before 3600, OpCleanup)] (NewSenderMonitor 1%N 3600) in
  senders sm !! 17%N = Some (mkRemoteSender 0 0%nat 0%nat 3599) /\
  value_of (MaxFloat (before 3600) 17%N sm) = Val (Ok 0) /\
  value_of (MaxFloat (after 3600) 17%N sm) = Val (Ok 100) /\
  value_of (MaxFloat (after 3600) 17%N sm) <> value_of (MaxFloat (before 3600) 17%N sm).
Proof. vm_compute. repeat split; try reflexivity. discriminate. Qed.

(** C6 (amended). A record that has not expired at the cleanup tick is
    kept as it is and the pass makes no [smgr.Clear] call for its
    sender; the next [MaxFloat] on that sender returns
    [reserveAlloc - pendingAmount] with [reserveAlloc] computed from what
    [GetSenderInfo], [ClaimedReserve] and [GetTranscoderPoolSize] answer
    at that call: the monitor stores no reserve, and the value is the
    one from before a change exactly as far as the collaborators still
    give the answers from before the change. *)
Theorem MaxFloat_after_exclusion (tick e : Env) (sm : senderMonitor) (a : Address)
    (r : remoteSender) :
  senders sm !! a = Some r ->
  ~ ttl sm < sub64 (unixNow tick) (lastAccess r) ->
  let sm1 := state_of (cleanup tick sm) in
  senders sm1 !! a = Some r /\
  ~ In (EvSmgrClear a) (events_of (cleanup tick sm)) /\
  value_of (MaxFloat e a sm1) =
    match reserveAlloc e sm a with
    | Val (Ok alloc) => Val (Ok (alloc - pendingAmount r))
    | Val (Err err) => Val (Err err)
    | Panic => Panic
    end /\
  (forall e0,
     GetSenderInfo e a = GetSenderInfo e0 a ->
     ClaimedReserve e a (claimant sm) = ClaimedReserve e0 a (claimant sm) ->
     GetTranscoderPoolSize e = GetTranscoderPoolSize e0 ->
     value_of (MaxFloat e a sm1) = value_of (MaxFloat e0 a sm1)).
Proof.
  intros Hk Hfresh sm1.
  assert (senders sm1 !! a = Some r) as Hk1 by (by apply cleanup_keeps_iff).
  assert (claimant sm1 = claimant sm) as Hcl by apply cleanup_fields.
  split; [exact Hk1|]. split.
  { rewrite cleanup_Clear. intros (v & Hv & Hexp). apply expired_iff in Hexp. congruence. }
  split.
  - rewrite MaxFloat_run. unfold value_of. cbn [fst].
    rewrite (reserveAlloc_claimant e sm sm1 a Hcl).
    unfold pendingOf. rewrite Hk1. reflexivity.
  - intros e0 H1 H2 H3. rewrite !MaxFloat_run. unfold value_of. cbn [fst].
    rewrite (reserveAlloc_ext e0 e sm1 a); [reflexivity | exact H1 | by rewrite Hcl | exact H3].
Qed.

Lemma MaxFloat_after_exclusion_witness :
  let at_time := env_fixture 500 5 100 in
  let sm := run [(at_time 0, OpMaxFloat 17%N); (at_time 3599, OpMaxFloat 17%N)]
                (NewSenderMonitor 1%N 3600) in
  let sm1 := state_of (cleanup (at_time 3600) sm) in
  senders sm1 !! 17%N = Some (mkRemoteSender 0 0%nat 0%nat 3599) /\
  value_of (MaxFloat (env_fixture 1000 5 100 3600) 17%N sm1) = Val (Ok (100 - 0)).
Proof.
  intros at_time sm sm1.
  assert (senders sm !! 17%N = Some (mkRemoteSender 0 0%nat 0%nat 3599)) as Hk
    by (vm_compute; reflexivity).
  assert (~ ttl sm < sub64 (unixNow (at_time 3600)) (lastAccess (mkRemoteSender 0 0%nat 0%nat 3599)))
    as Hfresh by (vm_compute; discriminate).
  destruct (MaxFloat_after_exclusion (at_time 3600) (env_fixture 1000 5 100 3600) sm 17%N _ Hk Hfresh)
    as (H1 & _ & H3 & _).
  split; [exact H1 | exact H3].
Defined.

(** ** Pool size zero *)

(** With pool size 0 and a failing [GetSenderInfo], [reserveAlloc] and
    [MaxFloat] return the error, not 0 and [- pendingAmount]. *)
Lemma pool_size_zero_counterexample :
  let e := env_failing "GetSenderInfo error" 0 0 in
  let sm := NewSenderMonitor 1%N 3600 in
  GetTranscoderPoolSize e = 0 /\
  reserveAlloc e sm 17%N = Val (Err (errExternal "GetSenderInfo error")) /\
  reserveAlloc e sm 17%N <> Val (Ok 0) /\
  value_of (MaxFloat e 17%N sm) = Val (Err (errExternal "GetSenderInfo error")) /\
  value_of (MaxFloat e 17%N sm) <> Val (Ok (- pendingOf sm 17%N)).
Proof. vm_compute. repeat split; try reflexivity; discriminate. Qed.

(** C7 (amended). Pool-size zero: when the rounds manager reports a pool
    size of zero and [GetSenderInfo] returns no error, [reserveAlloc] is
    0 with no error, whatever [ClaimedReserve] returns, and [MaxFloat]
    returns the negation of the pending amount of the sender. *)
Theorem pool_size_zero (e : Env) (sm : senderMonitor) (a : Address) :
  GetTranscoderPoolSize e = 0 ->
  snd (GetSenderInfo e a) = None ->
  reserveAlloc e sm a = Val (Ok 0) /\
  value_of (MaxFloat e a sm) = Val (Ok (- pendingOf sm a)).
Proof.
  intros Hpool Hinfo.
  assert (reserveAlloc e sm a = Val (Ok 0)) as Hra.
  { unfold reserveAlloc. destruct (GetSenderInfo e a) as [info err]. cbn in Hinfo. subst err.
    destruct (ClaimedReserve e a (claimant sm)) as [claimed cerr].
    rewrite Hpool. reflexivity. }
  split; [exact Hra|].
  rewrite MaxFloat_run, Hra. unfold value_of. cbn [fst]. reflexivity.
Qed.

Lemma pool_size_zero_witness :
  let e := env_claimed_fails "ClaimedReserve error" None 500 0 0 in
  let sm := state_of (SubFloat e 17%N 5 (NewSenderMonitor 1%N 3600)) in
  reserveAlloc e sm 17%N = Val (Ok 0) /\
  value_of (MaxFloat e 17%N sm) = Val (Ok (- pendingOf sm 17%N)).
Proof.
  intros e sm. apply pool_size_zero; reflexivity.
Defined.

(** ** [AddFloat] past its guard *)

(** C8. Retirement is authoritative: when the amount is at most the
    pending amount and the max-float computation fails with an error of
    the sender manager, [AddFloat] returns that very error, the pending
    amount stays decreased by the amount, [ClearErrCount] has been
    called and no max-float signal is sent. *)
Theorem retirement_authoritative (e : Env) (a : Address) (y : Z) (sm : senderMonitor)
    (err : error) :
  y <= pendingOf sm a ->
  reserveAlloc e sm a = Val (Err err) ->
  let x := AddFloat e a y sm in
  maxFloat e (state_of x) a = Val (Err err) /\
  value_of x = Val (Some err) /\
  pendingOf (state_of x) a = pendingOf sm a - y /\
  In (EvClearErrCount a) (events_of x) /\
  (forall q mf, ~ In (EvSignalMaxFloat q mf) (events_of x)).
Proof.
  intros Hle Hra x.
  assert (pendingOf (state_of x) a = pendingOf sm a - y) as Hp.
  { subst x. rewrite pendingOf_AddFloat.
    destruct (Z.ltb_spec (pendingOf sm a) y); [lia | reflexivity]. }
  subst x. rewrite AddFloat_run in *.
  destruct (Z.ltb_spec (pendingOf sm a) y) as [Hlt|_]; [lia|].
  cbn zeta in *. rewrite Hra in *. unfold value_of, state_of, events_of in *. cbn [fst snd] in *.
  split.
  { unfold maxFloat. rewrite (reserveAlloc_claimant e sm); [|reflexivity].
    rewrite Hra. reflexivity. }
  split; [reflexivity|]. split; [exact Hp|]. split.
  - apply in_or_app. right. left. reflexivity.
  - intros q mf Hin. apply in_app_or in Hin as [Hin|[Hin|[]]]; [|discriminate].
    unfold cache_events in Hin. destruct (senders sm !! a); cbn in Hin; intuition discriminate.
Qed.

(** The first part of TestAddFloat: [SubFloat(10)], then [AddFloat(10)]
    while the sender manager fails. *)
Lemma retirement_authoritative_witness :
  let e := env_failing "ClaimedReserve error" 1 0 in
  let sm := state_of (SubFloat e 17%N 10 (NewSenderMonitor 1%N 3600)) in
  let x := AddFloat e 17%N 10 sm in
  value_of x = Val (Some (errExternal "ClaimedReserve error")) /\
  pendingOf (state_of x) 17%N = pendingOf sm 17%N - 10.
Proof.
  intros e sm x.
  assert (10 <= pendingOf sm 17%N) as Hle by (vm_compute; discriminate).
  assert (reserveAlloc e sm 17%N = Val (Err (errExternal "ClaimedReserve error"))) as Hra
    by reflexivity.
  destruct (retirement_authoritative e 17%N 10 sm _ Hle Hra) as (_ & Hv & Hp & _).
  split; [exact Hv | exact Hp].
Defined.

(** C9. ErrCount reset: every [AddFloat] on a sender that does not
    return the insufficient-pending error - equivalently, whose amount
    is at most the pending amount -, and every [SubFloat] on it, calls
    [ClearErrCount] for that sender. *)
Theorem errcount_reset (e : Env) (a : Address) (sm : senderMonitor) :
  (forall y, value_of (AddFloat e a y sm) <> Val (Some errInsufficientPending) ->
     In (EvClearErrCount a) (events_of (AddFloat e a y sm))) /\
  (forall y, y <= pendingOf sm a ->
     In (EvClearErrCount a) (events_of (AddFloat e a y sm))) /\
  (forall x, In (EvClearErrCount a) (events_of (SubFloat e a x sm))).
Proof.
  assert (forall y, (pendingOf sm a <? y) = false ->
            In (EvClearErrCount a) (events_of (AddFloat e a y sm))) as Hadd.
  { intros y Hg. rewrite AddFloat_run, Hg. cbn zeta.
    destruct (reserveAlloc e sm a) as [[alloc|err]|]; unfold events_of; cbn [snd];
      apply in_or_app; right; left; reflexivity. }
  split; [|split].
  - intros y Hv. apply Hadd. destruct (pendingOf sm a <? y) eqn:Hg; [|reflexivity].
    exfalso. apply Hv. rewrite AddFloat_run, Hg. reflexivity.
  - intros y Hle. apply Hadd. apply Z.ltb_ge. exact Hle.
  - intros x. rewrite SubFloat_run. unfold events_of. cbn [snd].
    apply in_or_app. right. left. reflexivity.
Qed.

(** Scenario S3: after [SubFloat(A, 5)], [AddFloat(A, 5)] succeeds and
    calls [ClearErrCount(A)]. *)
Lemma errcount_reset_witness :
  let e := env_fixture 5000 5 100 0 in
  let sm := state_of (SubFloat e 17%N 5 (NewSenderMonitor 1%N 3600)) in
  In (EvClearErrCount 17%N) (events_of (AddFloat e 17%N 5 sm)) /\
  In (EvClearErrCount 17%N) (events_of (SubFloat e 17%N 5 sm)).
Proof.
  intros e sm. destruct (errcount_reset e 17%N sm) as (Hadd & _ & Hsub).
  split; [|apply Hsub].
  apply Hadd. vm_compute. discriminate.
Defined.

(** ** Records are created by any call *)

Lemma touch_refs_below e a sm : refs_below sm -> refs_below (touch e a sm).
Proof.
  intros Hinv b r. unfold touch, touched. cbn.
  destruct (decide (a = b)) as [->|Hne].
  - rewrite lookup_insert_eq. destruct (senders sm !! b) as [r0|] eqn:Hb; intros [= <-]; cbn.
    + by apply (Hinv b).
    + lia.
  - rewrite lookup_insert_ne by exact Hne. intros Hr.
    destruct (Hinv b r Hr). destruct (senders sm !! a); lia.
Qed.

Lemma set_pending_refs_below e a p sm :
  refs_below sm ->
  refs_below (set_senders (<[a := set_pendingAmount p (touched (unixNow e) sm a)]>
                             (senders (touch e a sm))) (touch e a sm)).
Proof.
  intros Hinv b r. pose proof (touch_refs_below e a sm Hinv) as Ht.
  cbn [senders nextRef set_senders].
  destruct (decide (a = b)) as [->|Hne].
  - rewrite lookup_insert_eq. intros [= <-]. cbn [queue done set_pendingAmount].
    apply (Ht b). apply touch_lookup.
  - rewrite lookup_insert_ne by exact Hne. apply Ht.
Qed.

Lemma step_refs_below c sm : refs_below sm -> refs_below (step c sm).
Proof.
  intros Hinv. destruct c as [e [a t|a x|a y|a|]]; unfold step; cbn [fst snd].
  - rewrite QueueTicket_run. by apply touch_refs_below.
  - rewrite SubFloat_run. by apply set_pending_refs_below.
  - rewrite AddFloat_run. destruct (pendingOf sm a <? y); [by apply touch_refs_below|].
    cbn zeta. destruct (reserveAlloc e sm a) as [[alloc|err]|]; by apply set_pending_refs_below.
  - rewrite MaxFloat_run. by apply touch_refs_below.
  - intros b r Hr. rewrite cleanup_lookup in Hr.
    assert (nextRef (state_of (cleanup e sm)) = nextRef sm) as ->.
    { unfold cleanup, state_of.
      destruct (cleanup_range (unixNow e) (ttl sm) (map_to_list (senders sm)) (senders sm)).
      reflexivity. }
    destruct (senders sm !! b) as [v|] eqn:Hb; [|discriminate].
    destruct (expired (unixNow e) (ttl sm) v); [discriminate|].
    injection Hr as <-. by apply (Hinv b).
Qed.

(** In every monitor reached from a new one the references of the
    records are below the allocation counter. *)
Lemma run_refs_below cs claimant ttl : refs_below (run cs (NewSenderMonitor claimant ttl)).
Proof.
  induction cs as [|c cs IH] using rev_ind.
  - intros b r. cbn. rewrite lookup_empty. discriminate.
  - rewrite run_snoc. by apply step_refs_below.
Qed.

(** C10. Each of the four calls on a sender - [MaxFloat], [AddFloat],
    [SubFloat], [QueueTicket] - starts with the calls of [ensureCache]
    and leaves a record of the sender stamped with the current time.
    In particular an [AddFloat] on an unknown sender that fails with the
    insufficient-pending error still creates the record: pending amount
    zero, a queue just allocated and started with its consumer loop
    (different from the queue of every record there was, as long as
    these are below the allocation counter, which holds in every
    monitor reached from a new one), last access at the current time; on
    a known sender it moves the last access to the current time. *)
Theorem ensureCache_runs_first (e : Env) (a : Address) (sm : senderMonitor) :
  (forall c,
     exists r evs,
       senders (call_outcome e a c sm).1 !! a = Some r /\
       lastAccess r = unixNow e /\
       (call_outcome e a c sm).2 = events_of (ensureCache e a sm) ++ evs) /\
  (forall y, pendingOf sm a < y ->
     let x := AddFloat e a y sm in
     value_of x = Val (Some errInsufficientPending) /\
     (senders sm !! a = None ->
        senders (state_of x) !! a
          = Some (mkRemoteSender 0 (nextRef sm) (nextRef sm) (unixNow e)) /\
        events_of x = [EvQueueStart (nextRef sm); EvGoConsumer (nextRef sm) (nextRef sm)] /\
        (refs_below sm -> forall b r, senders sm !! b = Some r -> queue r <> nextRef sm)) /\
     (forall r, senders sm !! a = Some r ->
        senders (state_of x) !! a = Some (set_lastAccess (unixNow e) r))).
Proof.
  split.
  - intros c. destruct (call_outcome_stamps e a c sm) as (r & evs & Hr & Hla & _ & Hev).
    exists r, evs. auto.
  - intros y Hlt x. subst x. rewrite AddFloat_run.
    destruct (Z.ltb_spec (pendingOf sm a) y) as [_|Hge]; [|lia].
    unfold value_of, state_of, events_of. cbn [fst snd].
    split; [reflexivity|]. split.
    + intros Hnone. rewrite touch_lookup. unfold touched, cache_events. rewrite Hnone.
      split; [reflexivity|]. split; [reflexivity|].
      intros Hinv b r Hr. destruct (Hinv b r Hr). lia.
    + intros r Hr. rewrite touch_lookup. unfold touched. rewrite Hr. reflexivity.
Qed.

(** Scenario S7 on a new monitor: the failed [AddFloat(A, 10)] at time
    42 leaves a record for [A]. *)
Lemma ensureCache_runs_first_witness :
  let e := env_fixture 500 50 100 42 in
  let x := AddFloat e 17%N 10 (NewSenderMonitor 1%N 3600) in
  value_of x = Val (Some errInsufficientPending) /\
  senders (state_of x) !! 17%N = Some (mkRemoteSender 0 0%nat 0%nat 42).
Proof.
  intros e x.
  assert (pendingOf (NewSenderMonitor 1%N 3600) 17%N < 10) as Hlt by (vm_compute; reflexivity).
  destruct (ensureCache_runs_first e 17%N (NewSenderMonitor 1%N 3600)) as (_ & Hfail).
  destruct (Hfail 10 Hlt) as (Hv & Hnew & _).
  split; [exact Hv|]. apply Hnew. reflexivity.
Defined.

(** * Further properties of the monitor *)

(** ** Frame of a call *)

(** X1. A call on one sender leaves the record of every other sender as
    it is, and never changes the claimant or the ttl of the monitor. *)
Theorem call_frame (e : Env) (a b : Address) (c : sender_call) (sm : senderMonitor) :
  a <> b ->
  senders (call_outcome e a c sm).1 !! b = senders sm !! b /\
  claimant (call_outcome e a c sm).1 = claimant sm /\
  ttl (call_outcome e a c sm).1 = ttl sm.
Proof.
  intros Hne. destruct c as [|y|x|t]; unfold call_outcome; cbn zeta.
  - rewrite MaxFloat_run. unfold state_of. cbn [fst snd].
    rewrite touch_lookup_ne by exact Hne. auto.
  - rewrite AddFloat_run. destruct (pendingOf sm a <? y).
    + unfold state_of. cbn [fst snd]. rewrite touch_lookup_ne by exact Hne. auto.
    + cbn zeta. destruct (reserveAlloc e sm a) as [[alloc|err]|];
        unfold state_of; cbn; rewrite !lookup_insert_ne by exact Hne; auto.
  - rewrite SubFloat_run. unfold state_of. cbn.
    rewrite !lookup_insert_ne by exact Hne. auto.
  - rewrite QueueTicket_run. unfold state_of. cbn [fst snd].
    rewrite touch_lookup_ne by exact Hne. auto.
Qed.

Lemma call_frame_witness :
  let e := env_fixture 500 50 100 7 in
  let sm := state_of (SubFloat e 5%N 3 (NewSenderMonitor 1%N 3600)) in
  senders (call_outcome e 17%N (CallSubFloat 9) sm).1 !! 5%N = senders sm !! 5%N.
Proof.
  intros e sm.
  assert (17%N <> 5%N) as Hne by discriminate.
  exact (proj1 (call_frame e 17%N 5%N (CallSubFloat 9) sm Hne)).
Defined.

(** ** Panics *)



(** ** A successful [AddFloat] *)

(** X3. When the amount is at most the pending amount and [reserveAlloc]
    returns an allocation, [AddFloat] returns nil, takes the amount off
    the pending amount and sends exactly one max-float signal, to the
    queue of the sender's record; the signalled value is
    [alloc - (pendingAmount - amount)], the value [MaxFloat] returns
    right after under the same answers of the collaborators. *)
Theorem AddFloat_success (e : Env) (a : Address) (y alloc : Z) (sm : senderMonitor) :
  y <= pendingOf sm a ->
  reserveAlloc e sm a = Val (Ok alloc) ->
  let x := AddFloat e a y sm in
  value_of x = Val None /\
  pendingOf (state_of x) a = pendingOf sm a - y /\
  (exists r, senders (state_of x) !! a = Some r /\
     signals (events_of x) = [(queue r, alloc - (pendingOf sm a - y))]) /\
  value_of (MaxFloat e a (state_of x)) = Val (Ok (alloc - (pendingOf sm a - y))).
Proof.
  intros Hle Hra x.
  assert (pendingOf (state_of x) a = pendingOf sm a - y) as Hp.
  { subst x. rewrite pendingOf_AddFloat.
    destruct (Z.ltb_spec (pendingOf sm a) y); [lia | reflexivity]. }
  assert (claimant (state_of x) = claimant sm) as Hcl.
  { subst x. rewrite AddFloat_run.
    destruct (pendingOf sm a <? y); [reflexivity|].
    cbn zeta. destruct (reserveAlloc e sm a) as [[?|?]|]; reflexivity. }
  split; [|split; [exact Hp|split]].
  - subst x. rewrite AddFloat_run.
    destruct (Z.ltb_spec (pendingOf sm a) y); [lia|]. cbn zeta. rewrite Hra. reflexivity.
  - subst x. rewrite AddFloat_run.
    destruct (Z.ltb_spec (pendingOf sm a) y); [lia|]. cbn zeta. rewrite Hra.
    unfold state_of, events_of. cbn [fst snd set_senders senders].
    eexists. rewrite lookup_insert_eq. split; [reflexivity|].
    unfold signals, cache_events. destruct (senders sm !! a); reflexivity.
  - rewrite MaxFloat_run. unfold value_of. cbn [fst].
    rewrite (reserveAlloc_claimant e sm (state_of x) a Hcl), Hra, Hp. reflexivity.
Qed.

(** Scenario S3: reserve 5000, pool 5, claimed 100; [SubFloat(A, 5)],
    then [AddFloat(A, 5)] signals 900. *)
Lemma AddFloat_success_witness :
  let e := env_fixture 5000 5 100 0 in
  let sm := state_of (SubFloat e 17%N 5 (NewSenderMonitor 1%N 3600)) in
  let x := AddFloat e 17%N 5 sm in
  value_of x = Val None /\
  value_of (MaxFloat e 17%N (state_of x)) = Val (Ok (900 - (pendingOf sm 17%N - 5))).
Proof.
  intros e sm x.
  assert (5 <= pendingOf sm 17%N) as Hle by (vm_compute; discriminate).
  assert (reserveAlloc e sm 17%N = Val (Ok 900)) as Hra by reflexivity.
  destruct (AddFloat_success e 17%N 5 900 sm Hle Hra) as (Hv & _ & _ & Hmf).
  split; [exact Hv | exact Hmf].
Defined.

(** ** [SubFloat] and the max float *)

(** X4. [SubFloat] sends no max-float signal and lowers the max float by
    its amount: whatever [MaxFloat] would have returned before the call,
    it returns that minus the amount after it (the same error or panic
    when [reserveAlloc] fails). *)
Theorem SubFloat_lowers_MaxFloat (e e' : Env) (a : Address) (x : Z) (sm : senderMonitor) :
  signals (events_of (SubFloat e' a x sm)) = [] /\
  value_of (MaxFloat e a (state_of (SubFloat e' a x sm)))
    = map_float (fun mf => mf - x) (value_of (MaxFloat e a sm)).
Proof.
  split.
  - rewrite SubFloat_run. unfold events_of, signals, cache_events. cbn [snd].
    destruct (senders sm !! a); reflexivity.
  - rewrite !MaxFloat_run. unfold value_of. cbn [fst]. rewrite pendingOf_SubFloat.
    rewrite (reserveAlloc_claimant e sm); [|rewrite SubFloat_run; reflexivity].
    destruct (reserveAlloc e sm a) as [[alloc|err]|]; cbn; [|reflexivity..].
    do 2 f_equal. lia.
Qed.

(** X5. Round trip: with a non-negative pending amount, [SubFloat(a, x)]
    followed by [AddFloat(a, x)] passes the guard ([AddFloat] returns nil,
    or the error of [reserveAlloc]) and gives every sender the pending
    amount it had, so that [MaxFloat] returns what it returned before. *)
Theorem SubFloat_AddFloat_roundtrip (e1 e2 e : Env) (a : Address) (x : Z) (sm : senderMonitor) :
  0 <= pendingOf sm a ->
  let sm1 := state_of (SubFloat e1 a x sm) in
  let r := AddFloat e2 a x sm1 in
  value_of r =
    match reserveAlloc e2 sm a with
    | Val (Ok _) => Val None
    | Val (Err err) => Val (Some err)
    | Panic => Panic
    end /\
  (forall b, pendingOf (state_of r) b = pendingOf sm b) /\
  (forall b, value_of (MaxFloat e b (state_of r)) = value_of (MaxFloat e b sm)).
Proof.
  intros Hnn sm1 r.
  assert (pendingOf sm1 a = pendingOf sm a + x) as H1 by apply pendingOf_SubFloat.
  assert (forall b, pendingOf (state_of r) b = pendingOf sm b) as Hp.
  { intros b. subst r. destruct (decide (a = b)) as [<-|Hne].
    - rewrite pendingOf_AddFloat, H1.
      destruct (Z.ltb_spec (pendingOf sm a + x) x); lia.
    - rewrite pendingOf_AddFloat_ne by exact Hne. subst sm1.
      by rewrite pendingOf_SubFloat_ne. }
  split; [|split; [exact Hp|]].
  - subst r. rewrite AddFloat_run, H1.
    destruct (Z.ltb_spec (pendingOf sm a + x) x) as [Hlt|_]; [lia|].
    cbn zeta. rewrite (reserveAlloc_claimant e2 sm sm1 a);
      [|subst sm1; rewrite SubFloat_run; reflexivity].
    destruct (reserveAlloc e2 sm a) as [[?|?]|]; reflexivity.
  - intros b. rewrite !MaxFloat_run. unfold value_of. cbn [fst]. rewrite Hp.
    rewrite (reserveAlloc_claimant e sm); [reflexivity|].
    subst r. rewrite AddFloat_run. subst sm1.
    destruct (_ <? x); [|cbn zeta; destruct (reserveAlloc e2 _ a) as [[?|?]|]];
      cbn; rewrite SubFloat_run; reflexivity.
Qed.

Lemma SubFloat_AddFloat_roundtrip_witness :
  let e := env_fixture 500 50 100 0 in
  let sm := state_of (SubFloat e 17%N 4 (NewSenderMonitor 1%N 3600)) in
  let r := AddFloat e 17%N 6 (state_of (SubFloat e 17%N 6 sm)) in
  value_of r = Val None /\
  pendingOf (state_of r) 17%N = pendingOf sm 17%N.
Proof.
  intros e sm r.
  assert (0 <= pendingOf sm 17%N) as Hnn by (vm_compute; discriminate).
  destruct (SubFloat_AddFloat_roundtrip e e e 17%N 6 sm Hnn) as (Hv & Hp & _).
  split; [exact Hv | exact (Hp 17%N)].
Defined.

(** ** The cleanup pass in closed form *)

Lemma cleanup_range_events now ttl kvs : forall s,
  (cleanup_range now ttl kvs s).2 = flat_map (evict_events now ttl) kvs.
Proof.
  induction kvs as [|[k v] kvs IH]; intros s; [reflexivity|].
  cbn. unfold evict_events at 1. cbn [fst snd].
  destruct (expired now ttl v).
  - specialize (IH (delete k s)).
    destruct (cleanup_range now ttl kvs (delete k s)) as [s' evs]. cbn in *.
    by rewrite IH.
  - apply IH.
Qed.

Lemma cleared_evictions_subset now ttl kvs k :
  k ∈ cleared (flat_map (evict_events now ttl) kvs) -> k ∈ kvs.*1.
Proof.
  induction kvs as [|[k' v'] kvs IH]; cbn; [by intros H; apply elem_of_nil in H|].
  unfold evict_events at 1. cbn [fst snd]. destruct (expired now ttl v'); cbn.
  - intros H. apply elem_of_cons in H as [->|H]; [left | right; by apply IH].
  - intros H. right. by apply IH.
Qed.

Lemma cleared_evictions_NoDup now ttl kvs :
  NoDup kvs.*1 -> NoDup (cleared (flat_map (evict_events now ttl) kvs)).
Proof.
  induction kvs as [|[k v] kvs IH]; cbn; [constructor|].
  intros Hnd. apply NoDup_cons in Hnd as [Hk Hnd].
  unfold evict_events at 1. cbn [fst snd]. destruct (expired now ttl v); cbn.
  - apply NoDup_cons. split; [|by apply IH].
    intros Hin. apply Hk. by apply (cleared_evictions_subset now ttl).
  - by apply IH.
Qed.

(** X6. The cleanup loop with its deletions is a filter: after a pass
    the map holds exactly the records that have not expired, unchanged;
    the calls of the pass are, for every expired record in the order of
    the range, the send on its [done] channel followed by [smgr.Clear]
    of its address; no address is cleared twice, and the allocation
    counter, the claimant and the ttl stay as they are. *)
Theorem cleanup_closed_form (e : Env) (sm : senderMonitor) :
  let x := cleanup e sm in
  senders (state_of x)
    = filter (fun kv => expired (unixNow e) (ttl sm) kv.2 = false) (senders sm) /\
  events_of x = flat_map (evict_events (unixNow e) (ttl sm)) (map_to_list (senders sm)) /\
  NoDup (cleared (events_of x)) /\
  nextRef (state_of x) = nextRef sm /\
  claimant (state_of x) = claimant sm /\
  ttl (state_of x) = ttl sm.
Proof.
  intros x.
  assert (events_of x = flat_map (evict_events (unixNow e) (ttl sm)) (map_to_list (senders sm)))
    as Hev.
  { subst x. unfold cleanup, events_of.
    pose proof (cleanup_range_events (unixNow e) (ttl sm) (map_to_list (senders sm)) (senders sm)) as H.
    destruct (cleanup_range _ _ _ _) as [s' evs]. exact H. }
  split; [|split; [exact Hev|split; [|split; [|apply cleanup_fields]]]].
  - apply map_eq. intros k. subst x. rewrite cleanup_lookup, map_lookup_filter.
    destruct (senders sm !! k) as [v|]; cbn; [|reflexivity].
    destruct (expired (unixNow e) (ttl sm) v) eqn:Hexp.
    + rewrite option_guard_False; [reflexivity | cbn; congruence].
    + rewrite option_guard_True; reflexivity.
  - rewrite Hev. apply cleared_evictions_NoDup, NoDup_fst_map_to_list.
  - subst x. unfold cleanup, state_of.
    destruct (cleanup_range _ _ _ _) as [s' evs]. reflexivity.
Qed.

(** X7. A cleanup pass is idempotent: a second pass at the same clock
    reading leaves the monitor as it is and makes no call. *)
Theorem cleanup_idempotent (e : Env) (sm : senderMonitor) :
  let sm1 := state_of (cleanup e sm) in
  state_of (cleanup e sm1) = sm1 /\ events_of (cleanup e sm1) = [].
Proof.
  intros sm1.
  destruct (cleanup_closed_form e sm) as (Hs & _ & _ & Hn & Hc & Ht). fold sm1 in Hs, Hn, Hc, Ht.
  destruct (cleanup_closed_form e sm1) as (Hs1 & Hev1 & _ & Hn1 & Hc1 & Ht1).
  assert (forall k v, senders sm1 !! k = Some v -> expired (unixNow e) (ttl sm1) v = false) as Hkept.
  { intros k v Hk. rewrite Hs in Hk. apply map_lookup_filter_Some in Hk as [_ Hk].
    rewrite Ht. exact Hk. }
  split.
  - assert (senders (state_of (cleanup e sm1)) = senders sm1) as Hsame.
    { rewrite Hs1. apply map_eq. intros k. rewrite map_lookup_filter.
      destruct (senders sm1 !! k) as [v|] eqn:Hk; cbn; [|reflexivity].
      rewrite option_guard_True; [reflexivity | by apply (Hkept k)]. }
    destruct (state_of (cleanup e sm1)) as [c t s n], sm1 as [c1 t1 s1 n1].
    cbn in *. congruence.
  - rewrite Hev1.
    assert (forall kvs : list (N * remoteSender),
              (forall kv, kv ∈ kvs -> expired (unixNow e) (ttl sm1) kv.2 = false) ->
              flat_map (evict_events (unixNow e) (ttl sm1)) kvs = []) as Hnone.
    { induction kvs as [|kv kvs IH]; intros Hall; [reflexivity|].
      cbn. unfold evict_events at 1. rewrite (Hall kv (list_elem_of_here _ _)). cbn.
      apply IH. intros kv' Hin. apply Hall. by apply list_elem_of_further. }
    apply Hnone. intros [k v] Hin. apply elem_of_map_to_list in Hin. by apply (Hkept k).
Qed.

(** X8. Eviction forgets the pending amount: once the record of a sender
    has expired at a pass, the sender is unknown again; its next
    [MaxFloat] returns [reserveAlloc] itself, whatever was pending, a
    next [AddFloat] of a positive amount fails with the
    insufficient-pending error, and the record the next call creates
    holds a queue allocated anew. *)
Theorem eviction_forgets_pending (tick e : Env) (sm : senderMonitor) (a : Address)
    (r : remoteSender) :
  senders sm !! a = Some r ->
  ttl sm < sub64 (unixNow tick) (lastAccess r) ->
  let sm1 := state_of (cleanup tick sm) in
  senders sm1 !! a = None /\
  value_of (MaxFloat e a sm1) = reserveAlloc e sm a /\
  (forall y, 0 < y -> value_of (AddFloat e a y sm1) = Val (Some errInsufficientPending)) /\
  (forall c, exists r', senders (call_outcome e a c sm1).1 !! a = Some r' /\
     queue r' = nextRef sm /\ (refs_below sm -> queue r' <> queue r)).
Proof.
  intros Hk Hexp sm1.
  assert (senders sm1 !! a = None) as Hnone by (by apply (cleanup_keeps_iff tick sm a r Hk)).
  assert (pendingOf sm1 a = 0) as Hp by (unfold pendingOf; by rewrite Hnone).
  destruct (cleanup_closed_form tick sm) as (_ & _ & _ & Hn & Hc & _). fold sm1 in Hn, Hc.
  split; [exact Hnone|]. split; [|split].
  - rewrite MaxFloat_run. unfold value_of. cbn [fst].
    rewrite (reserveAlloc_claimant e sm sm1 a Hc), Hp.
    destruct (reserveAlloc e sm a) as [[alloc|err]|]; cbn; [|reflexivity..].
    do 2 f_equal. lia.
  - intros y Hy. rewrite AddFloat_run, Hp.
    destruct (Z.ltb_spec 0 y); [reflexivity | lia].
  - intros c.
    assert (queue (touched (unixNow e) sm1 a) = nextRef sm) as Hq.
    { unfold touched. rewrite Hnone. cbn. exact Hn. }
    assert (exists r', senders (call_outcome e a c sm1).1 !! a = Some r' /\
              queue r' = queue (touched (unixNow e) sm1 a)) as (r' & Hr' & Hq').
    { destruct c as [|y|x|t]; unfold call_outcome; cbn zeta.
      - rewrite MaxFloat_run. unfold state_of. cbn [fst snd]. rewrite touch_lookup. eauto.
      - rewrite AddFloat_run. destruct (_ <? y).
        + unfold state_of. cbn [fst snd]. rewrite touch_lookup. eauto.
        + cbn zeta. destruct (reserveAlloc e sm1 a) as [[?|?]|];
            unfold state_of; cbn; rewrite lookup_insert_eq; eauto.
      - rewrite SubFloat_run. unfold state_of. cbn. rewrite lookup_insert_eq. eauto.
      - rewrite QueueTicket_run. unfold state_of. cbn [fst snd]. rewrite touch_lookup. eauto. }
    exists r'. split; [exact Hr'|]. rewrite Hq', Hq. split; [reflexivity|].
    intros Hinv. destruct (Hinv a r Hk). lia.
Qed.

(** Scenario S5: the record of a sender with 5 pending, last accessed
    at time 0, is evicted by the pass at time 3601; [MaxFloat] then
    returns 500/50 - 100 with nothing pending. *)
Lemma eviction_forgets_pending_witness :
  let at_time := env_fixture 500 50 100 in
  let sm := state_of (SubFloat (at_time 0) 17%N 5 (NewSenderMonitor 1%N 3600)) in
  let sm1 := state_of (cleanup (at_time 3601) sm) in
  senders sm1 !! 17%N = None /\
  value_of (MaxFloat (at_time 3601) 17%N sm1) = Val (Ok (-90)).
Proof.
  intros at_time sm sm1.
  assert (senders sm !! 17%N = Some (mkRemoteSender 5 0%nat 0%nat 0)) as Hk
    by (vm_compute; reflexivity).
  assert (ttl sm < sub64 (unixNow (at_time 3601)) (lastAccess (mkRemoteSender 5 0%nat 0%nat 0)))
    as Hexp by (vm_compute; reflexivity).
  destruct (eviction_forgets_pending (at_time 3601) (at_time 3601) sm 17%N _ Hk Hexp)
    as (Hnone & Hmf & _).
  split; [exact Hnone | exact Hmf].
Defined.

(** ** Queues and channels of the records *)

(** Where a record found after a step comes from: the record the sender
    had, with its queue and channel, or a record made by this very step
    for the sender it is made for, with references taken at the counter. *)
Lemma step_lookup_origin c sm b r' :
  senders (step c sm) !! b = Some r' ->
  (exists r, senders sm !! b = Some r /\ queue r' = queue r /\ done r' = done r) \/
  (senders sm !! b = None /\ op_target (snd c) = Some b /\
   queue r' = nextRef sm /\ done r' = nextRef sm).
Proof.
  revert r'.
  assert (forall e a r', senders (touch e a sm) !! b = Some r' ->
    (exists r, senders sm !! b = Some r /\ queue r' = queue r /\ done r' = done r) \/
    (senders sm !! b = None /\ Some a = Some b /\
     queue r' = nextRef sm /\ done r' = nextRef sm)) as Htouch.
  { intros e a r'. destruct (decide (a = b)) as [->|Hne].
    - rewrite touch_lookup. unfold touched.
      destruct (senders sm !! b) as [r|]; intros [= <-]; [left; eauto | right; auto].
    - rewrite touch_lookup_ne by exact Hne. intros H. left. eauto. }
  assert (forall e a p r',
    senders (set_senders (<[a := set_pendingAmount p (touched (unixNow e) sm a)]>
                            (senders (touch e a sm))) (touch e a sm)) !! b = Some r' ->
    (exists r, senders sm !! b = Some r /\ queue r' = queue r /\ done r' = done r) \/
    (senders sm !! b = None /\ Some a = Some b /\
     queue r' = nextRef sm /\ done r' = nextRef sm)) as Hset.
  { intros e a p r'. cbn [senders set_senders]. destruct (decide (a = b)) as [->|Hne].
    - rewrite lookup_insert_eq. intros [= <-]. cbn [queue done set_pendingAmount].
      apply (Htouch e b). apply touch_lookup.
    - rewrite lookup_insert_ne by exact Hne. apply Htouch. }
  intros r'. destruct c as [e [a t|a x|a y|a|]]; unfold step; cbn [fst snd op_target].
  - rewrite QueueTicket_run. apply Htouch.
  - rewrite SubFloat_run. apply Hset.
  - rewrite AddFloat_run. destruct (pendingOf sm a <? y); [apply Htouch|].
    cbn zeta. destruct (reserveAlloc e sm a) as [[alloc|err]|]; apply Hset.
  - rewrite MaxFloat_run. apply Htouch.
  - rewrite cleanup_lookup. destruct (senders sm !! b) as [v|]; [|discriminate].
    destruct (expired (unixNow e) (ttl sm) v); [discriminate|].
    intros [= <-]. left. eauto.
Qed.

Lemma step_queues_distinct c sm :
  refs_below sm -> queues_distinct sm -> queues_distinct (step c sm).
Proof.
  intros Hrefs Hdist a b ra rb Ha Hb Heq.
  apply step_lookup_origin in Ha as [(ra0 & Ha0 & Hqa & Hda)|(Ha0 & Hta & Hqa & Hda)];
  apply step_lookup_origin in Hb as [(rb0 & Hb0 & Hqb & Hdb)|(Hb0 & Htb & Hqb & Hdb)].
  - apply (Hdist a b ra0 rb0 Ha0 Hb0). rewrite <- Hqa, <- Hqb, <- Hda, <- Hdb. exact Heq.
  - destruct (Hrefs a ra0 Ha0). lia.
  - destruct (Hrefs b rb0 Hb0). lia.
  - congruence.
Qed.

(** X9. In every monitor reached from a new one by calls and cleanup
    passes, two different senders never share a ticket queue or a [done]
    channel. *)
Theorem queues_never_shared (claimant : Address) (ttl : Z) (cs : list (Env * op)) :
  queues_distinct (run cs (NewSenderMonitor claimant ttl)).
Proof.
  induction cs as [|c cs IH] using rev_ind.
  - intros a b ra rb Ha. cbn in Ha. rewrite lookup_empty in Ha. discriminate.
  - rewrite run_snoc. apply step_queues_distinct; [apply run_refs_below | exact IH].
Qed.

(** X10. As long as a record lives it keeps its queue and its [done]
    channel: no call and no cleanup pass replaces them; a record that
    disappears was evicted by a pass. *)
Theorem record_keeps_queue (c : Env * op) (sm : senderMonitor) (b : Address)
    (r : remoteSender) :
  senders sm !! b = Some r ->
  (forall r', senders (step c sm) !! b = Some r' -> queue r' = queue r /\ done r' = done r) /\
  (senders (step c sm) !! b = None ->
     snd c = OpCleanup /\ ttl sm < sub64 (unixNow (fst c)) (lastAccess r)).
Proof.
  intros Hb. split.
  - intros r' Hr'.
    apply step_lookup_origin in Hr' as [(r0 & Hr0 & Hq & Hd)|(Hnone & _)]; [|congruence].
    rewrite Hb in Hr0. injection Hr0 as <-. auto.
  - destruct c as [e o]. cbn [fst snd].
    assert (forall a cl, senders (call_outcome e a cl sm).1 !! b <> None) as Hcall.
    { intros a cl Hnone. destruct (decide (a = b)) as [->|Hne].
      - destruct (call_outcome_stamps e b cl sm) as (r1 & _ & Hr1 & _). congruence.
      - destruct (call_frame e a b cl sm Hne) as (Hf & _). congruence. }
    destruct o as [a t|a x|a y|a|]; unfold step; cbn [fst snd]; intros Hnone.
    + exfalso. exact (Hcall a (CallQueueTicket t) Hnone).
    + exfalso. exact (Hcall a (CallSubFloat x) Hnone).
    + exfalso. exact (Hcall a (CallAddFloat y) Hnone).
    + exfalso. exact (Hcall a CallMaxFloat Hnone).
    + split; [reflexivity|]. by apply (cleanup_keeps_iff e sm b r Hb).
Qed.

Lemma record_keeps_queue_witness :
  let e := env_fixture 500 50 100 0 in
  let sm := state_of (MaxFloat e 5%N (state_of (SubFloat e 17%N 5 (NewSenderMonitor 1%N 3600)))) in
  let r' := mkRemoteSender 0 1%nat 1%nat 9 in
  senders (step (env_fixture 500 50 100 9, OpAddFloat 5%N 0) sm) !! 5%N = Some r' /\
  queue r' = 1%nat /\ done r' = 1%nat.
Proof.
  intros e sm r'.
  assert (senders sm !! 5%N = Some (mkRemoteSender 0 1%nat 1%nat 0)) as Hb
    by (vm_compute; reflexivity).
  assert (senders (step (env_fixture 500 50 100 9, OpAddFloat 5%N 0) sm) !! 5%N = Some r') as Hr'
    by (vm_compute; reflexivity).
  split; [exact Hr'|].
  exact (proj1 (record_keeps_queue (env_fixture 500 50 100 9, OpAddFloat 5%N 0) sm 5%N _ Hb)
           r' Hr').
Defined.

(** ** Calls that only read *)

(** X11. [MaxFloat] and [QueueTicket] change no pending amount, call
    neither [ClearErrCount] nor [SignalMaxFloat], and leave the max float
    of every sender as it was; [QueueTicket] adds its ticket, once, to
    the queue of the record of its sender. *)
Theorem reading_calls (e e' : Env) (a : Address) (t : SignedTicket) (sm : senderMonitor) :
  let xm := MaxFloat e' a sm in
  let xq := QueueTicket e' a t sm in
  (forall b, pendingOf (state_of xm) b = pendingOf sm b /\
             pendingOf (state_of xq) b = pendingOf sm b) /\
  (forall b, value_of (MaxFloat e b (state_of xm)) = value_of (MaxFloat e b sm) /\
             value_of (MaxFloat e b (state_of xq)) = value_of (MaxFloat e b sm)) /\
  (forall ev, In ev (events_of xm ++ events_of xq) ->
     match ev with EvClearErrCount _ | EvSignalMaxFloat _ _ => False | _ => True end) /\
  (exists r, senders (state_of xq) !! a = Some r /\
     omap (fun ev => match ev with EvQueueAdd q t' => Some (q, t') | _ => None end)
       (events_of xq) = [(queue r, t)]).
Proof.
  intros xm xq.
  assert (state_of xm = touch e' a sm) as Hm by (subst xm; rewrite MaxFloat_run; reflexivity).
  assert (state_of xq = touch e' a sm) as Hq by (subst xq; rewrite QueueTicket_run; reflexivity).
  assert (forall b, pendingOf (touch e' a sm) b = pendingOf sm b) as Hp
    by (intros b; apply pendingOf_touch).
  split; [|split; [|split]].
  - intros b. rewrite Hm, Hq. auto.
  - intros b. rewrite Hm, Hq, !MaxFloat_run. unfold value_of. cbn [fst]. rewrite Hp.
    rewrite (reserveAlloc_claimant e sm (touch e' a sm) b); auto.
  - intros ev Hin. subst xm xq. rewrite MaxFloat_run, QueueTicket_run in Hin.
    unfold events_of in Hin. cbn [snd] in Hin. unfold cache_events in Hin.
    destruct (senders sm !! a); cbn in Hin;
      repeat (destruct Hin as [<-|Hin]; [exact I|]); destruct Hin.
  - rewrite Hq. rewrite touch_lookup. eexists. split; [reflexivity|].
    subst xq. rewrite QueueTicket_run. unfold events_of, cache_events. cbn [snd].
    destruct (senders sm !! a); reflexivity.
Qed.

(** ** The clock and the subtraction on 64 bits *)



(** ** The allocation *)

(** X13. When both reads succeed and the pool size is not zero,
    [reserveAlloc] returns [Reserve / poolSize - claimed] with the
    Euclidean quotient: the allocation plus the claimed amount, times
    the pool size, is at most the reserve and misses it by less than
    the absolute value of the pool size. *)
Theorem reserveAlloc_share (e : Env) (sm : senderMonitor) (a : Address)
    (info : SenderInfo) (claimed : Z) :
  GetSenderInfo e a = (Some info, None) ->
  fst (ClaimedReserve e a (claimant sm)) = Some claimed ->
  GetTranscoderPoolSize e <> 0 ->
  exists alloc,
    reserveAlloc e sm a = Val (Ok alloc) /\
    0 <= Reserve info - GetTranscoderPoolSize e * (alloc + claimed)
      < Z.abs (GetTranscoderPoolSize e).
Proof.
  intros Hinfo Hcl Hpool. unfold reserveAlloc. rewrite Hinfo.
  destruct (ClaimedReserve e a (claimant sm)) as [c cerr]. cbn in Hcl. subst c.
  destruct (Z.eqb_spec (GetTranscoderPoolSize e) 0) as [Hz|_]; [contradiction|].
  eexists. split; [reflexivity|].
  unfold big_Div. set (p := GetTranscoderPoolSize e) in *. set (x := Reserve info).
  replace (p * (Z.sgn p * (x / Z.abs p) - claimed + claimed))
    with (Z.abs p * (x / Z.abs p)).
  - pose proof (Z.mod_pos_bound x (Z.abs p)) as Hm.
    pose proof (Z.div_mod x (Z.abs p)) as Hdm. lia.
  - rewrite <- (Z.sgn_abs p). ring.
Qed.

(** Scenario S1: reserve 500, pool 50, claimed 100. *)
Lemma reserveAlloc_share_witness :
  exists alloc,
    reserveAlloc (env_fixture 500 50 100 0) (NewSenderMonitor 1%N 3600) 17%N = Val (Ok alloc) /\
    0 <= 500 - 50 * (alloc + 100) < 50.
Proof.
  assert (GetTranscoderPoolSize (env_fixture 500 50 100 0) <> 0) as Hpool by discriminate.
  exact (reserveAlloc_share (env_fixture 500 50 100 0) (NewSenderMonitor 1%N 3600) 17%N
           (mkSenderInfo 500 0 500 NotFrozen 0) 100 eq_refl eq_refl Hpool).
Defined.

(** * Properties of the HTTP handlers *)

Module server_props.
Import server.

(** Case analysis on what a handler matches on. *)
Ltac handler_cases :=
  repeat match goal with
  | |- context [match ?x with _ => _ end] =>
    let t := type of x in
    let t := eval hnf in t in
    match t with
    | option _ => destruct x eqn:?
    | (_ * _)%type => destruct x as [? [?|]] eqn:?
    | bool => destruct x eqn:?
    end; cbn in *
  end.

(** ** [mustHaveFormParams] *)

Lemma mustHaveFormParams_range_all h r params :
  Forall (fun p => FormValue r p <> "") params ->
  mustHaveFormParams_range h r params = h r.
Proof.
  induction 1 as [|p ps Hp _ IH]; [reflexivity|]. cbn.
  destruct (String.eqb_spec (FormValue r p) ""); [contradiction | exact IH].
Qed.

Lemma mustHaveFormParams_range_first h r before param after :
  Forall (fun p => FormValue r p <> "") before ->
  FormValue r param = "" ->
  mustHaveFormParams_range h r (before ++ param :: after)
    = respondWith400 ("missing form param: " +:+ param).
Proof.
  intros Hb Hp. induction Hb as [|p ps Hne _ IH]; cbn.
  - rewrite Hp. reflexivity.
  - destruct (String.eqb_spec (FormValue r p) ""); [contradiction | exact IH].
Qed.

(** X14. [mustHaveFormParams] serves the wrapped handler exactly when
    the form parses and every listed parameter has a non-empty value;
    a form that fails to parse is answered with 500, and otherwise the
    first listed parameter that is missing or empty is named in a 400;
    in both cases the wrapped handler does not run. *)
Theorem mustHaveFormParams_serves (h : Handler) (params : list string) (r : Request) :
  (ParseForm r = None -> Forall (fun p => FormValue r p <> "") params ->
     mustHaveFormParams h params r = h r) /\
  (forall err, ParseForm r = Some err ->
     mustHaveFormParams h params r = respondWith500 ("parse form error: " +:+ Error err)) /\
  (forall before param after,
     params = before ++ param :: after -> ParseForm r = None ->
     Forall (fun p => FormValue r p <> "") before -> FormValue r param = "" ->
     mustHaveFormParams h params r = respondWith400 ("missing form param: " +:+ param)).
Proof.
  unfold mustHaveFormParams. split; [|split].
  - intros -> Hall. by apply mustHaveFormParams_range_all.
  - intros err ->. reflexivity.
  - intros before param after -> -> Hb Hp. by apply mustHaveFormParams_range_first.
Qed.

Lemma mustHaveFormParams_serves_witness :
  let r := mkRequest None {[ "depositAmount" := ["5"]; "reserveAmount" := [] ]} in
  let h := fundDepositAndReserveHandler (mkPkg (fun _ => (Some 5, None)) (fun _ => (None, None))
                                           (fun _ => (None, None)) (fun _ => "")) None in
  mustHaveFormParams h ["depositAmount"; "reserveAmount"] r
    = respondWith400 "missing form param: reserveAmount".
Proof.
  intros r h.
  destruct (mustHaveFormParams_serves h ["depositAmount"; "reserveAmount"] r) as (_ & _ & H).
  apply (H ["depositAmount"] "reserveAmount" []); [reflexivity | reflexivity | | reflexivity].
  repeat constructor. vm_compute. discriminate.
Defined.

(** ** One answer per request *)

(** X15. Every handler answers a request with exactly one status code:
    500 without a client or block getter, 400 exactly when a client is
    there and an amount of the form fails to parse, and 200 or 500
    otherwise; [mustHaveFormParams] keeps this for the handler it wraps. *)
Theorem handlers_answer_once (pkg : Pkg) (r : Request) :
  (forall ep client, exists code,
     statuses (client_handler pkg ep client r) = [code] /\
     (code = StatusOK \/ code = StatusBadRequest \/ code = StatusInternalServerError) /\
     (client = None -> code = StatusInternalServerError) /\
     (code = StatusBadRequest <->
      is_Some client /\
      exists tep, ep = TxEndpoint tep /\ Exists (fun i => snd i <> None) (tx_inputs pkg tep r))) /\
  (forall getter, exists code,
     statuses (currentBlockHandler pkg getter r) = [code] /\
     (code = StatusOK \/ code = StatusInternalServerError) /\
     (getter = None -> code = StatusInternalServerError)) /\
  (forall (h : Handler) params,
     (exists code, statuses (h r) = [code]) ->
     exists code, statuses (mustHaveFormParams h params r) = [code]).
Proof.
  split; [|split].
  - intros ep client.
    destruct ep as [[| | | |]| |], client as [client|];
      cbn [client_handler tx_handler tx_inputs]; unfold fundDepositAndReserveHandler,
      fundDepositHandler, unlockHandler, cancelUnlockHandler, withdrawHandler,
      senderInfoHandler, ticketBrokerParamsHandler, write_json;
      handler_cases; eexists; (split; [reflexivity|]);
      (split; [unfold StatusOK, StatusBadRequest, StatusInternalServerError; auto|]);
      (split; [try discriminate; auto|]);
      unfold StatusOK, StatusBadRequest, StatusInternalServerError;
      (split; [try discriminate|]).
    all: try (intros _; split; [eauto|]; eexists; split; [reflexivity|]).
    all: try (intros [Hc (tep & Hep & Hex)]; try (destruct Hc; discriminate);
              try discriminate; injection Hep as <-; cbn in Hex;
              repeat match goal with H : ParseBigInt _ _ = _ |- _ => rewrite H in Hex end;
              repeat (apply Exists_cons in Hex as [Hex|Hex]; [cbn in Hex; congruence|]);
              by apply Exists_nil in Hex).
    all: try (cbn; repeat match goal with H : ParseBigInt _ _ = _ |- _ => rewrite H end).
    all: try (apply Exists_cons_hd; cbn; discriminate).
    all: try (apply Exists_cons_tl, Exists_cons_hd; cbn; discriminate).
  - intros getter. destruct getter as [getter|]; unfold currentBlockHandler; handler_cases;
      eexists; (split; [reflexivity|]);
      unfold StatusOK, StatusInternalServerError; split; auto; discriminate.
  - intros h params Hh. unfold mustHaveFormParams.
    destruct (ParseForm r) as [err|]; [eexists; reflexivity|].
    induction params as [|p ps IH]; cbn; [exact Hh|].
    destruct (String.eqb _ _); [eexists; reflexivity | exact IH].
Qed.

(** ** The handlers that submit a transaction *)




(** ** [senderInfoHandler] *)

(** X18. [senderInfoHandler] treats an error whose text is "ErrNoResult"
    as a sender with nothing on chain: its answer is the one it gives
    for a client with the same account whose [GetSenderInfo] returns a
    [SenderInfo] of zeros with a reserve that is not frozen; any other
    error of [GetSenderInfo] is answered with 500 and nothing is
    marshalled or written. *)
Theorem senderInfoHandler_ErrNoResult (pkg : Pkg) (client : LivepeerEthClient)
    (r : Request) (info : option SenderInfo) (err : error) :
  GetSenderInfo client (Account_Address client) = (info, Some err) ->
  (Error err = "ErrNoResult" ->
   forall client',
     Account_Address client' = Account_Address client ->
     GetSenderInfo client' (Account_Address client') = (Some zero_SenderInfo, None) ->
     senderInfoHandler pkg (Some client) r = senderInfoHandler pkg (Some client') r) /\
  (Error err <> "ErrNoResult" ->
   senderInfoHandler pkg (Some client) r =
     Call_GetSenderInfo (Account_Address client) ::
     respondWith500 ("could not query sender info: " +:+ Error err)).
Proof.
  intros Hget. unfold senderInfoHandler. rewrite Hget. split.
  - intros Herr client' Hacc Hget'. rewrite Hget', Hacc, Herr. reflexivity.
  - intros Herr. destruct (String.eqb_spec (Error err) "ErrNoResult"); [contradiction|].
    reflexivity.
Qed.

Lemma senderInfoHandler_ErrNoResult_witness :
  let pkg := mkPkg (fun _ => (None, None)) (fun i => (Some "{}", None))
                   (fun _ => (None, None)) (fun _ => "") in
  let client g := mkClient (fun _ _ => (None, None)) (fun _ => (None, None))
                    (None, None) (None, None) (None, None)
                    (fun _ => None) 9%N g (None, None) in
  let r := mkRequest None ∅ in
  senderInfoHandler pkg (Some (client (fun _ => (None, Some (errExternal "ErrNoResult"))))) r
  = senderInfoHandler pkg (Some (client (fun _ => (Some zero_SenderInfo, None)))) r.
Proof.
  intros pkg client r.
  refine (proj1 (senderInfoHandler_ErrNoResult pkg _ r None (errExternal "ErrNoResult") _)
            _ _ _ _); reflexivity.
Defined.

(** ** Answers in JSON *)



(** ** [currentBlockHandler] *)

(** X20. [currentBlockHandler] writes the bytes of the last seen block
    after a 200 status line when the getter returns a block and no
    error; when the getter returns neither a block nor an error the
    status line is already written when the nil block is dereferenced;
    an error of the getter is answered with 500 and nothing is written. *)
Theorem currentBlockHandler_outcomes (pkg : Pkg) (getter : BlockGetter) (r : Request) :
  let out := currentBlockHandler pkg (Some getter) r in
  (forall blk, LastSeenBlock getter = (Some blk, None) ->
     out = [Call_LastSeenBlock; W_WriteHeader StatusOK; W_Write (Bytes pkg blk)]) /\
  (In Panic_nil out <-> LastSeenBlock getter = (None, None)) /\
  (In Panic_nil out -> out = [Call_LastSeenBlock; W_WriteHeader StatusOK; Panic_nil]) /\
  (forall blk err, LastSeenBlock getter = (blk, Some err) ->
     statuses out = [StatusInternalServerError] /\
     forall data, ~ In (W_Write data) out).
Proof.
  unfold currentBlockHandler. destruct (LastSeenBlock getter) as [[blk|] [err|]]; cbn.
  all: split; [intros; try discriminate; congruence|].
  all: split; [split; [intros H; intuition discriminate | intros H; try discriminate; auto]|].
  all: split; [intros H; try reflexivity; intuition discriminate|].
  all: intros blk' err' H; try discriminate.
  all: split; [reflexivity | intros data Hin; intuition discriminate].
Qed.

End server_props.
